(** * noisemaker.effects: image-tensor effects

    A shallow embedding of [noisemaker/effects.py]: the convolution
    kernels, [convolve], [normalize], [resample], [crease], [displace]
    and [wavelet], together with the parts of NumPy, TensorFlow and
    scikit-image those functions call.

    Conventions of the embedding.
    - A sample is an IEEE-style value: a finite number, an infinity or
      NaN.  Finite numbers are carried as exact rationals: rounding is
      not modelled, and zero has no sign (it behaves as [+0]).
    - An image tensor is a dense array with an explicit shape
      (height, width, channels) and its samples in row-major order, kept
      as rows of pixels of channel values.
    - Python exceptions are values of [error]; a function that may raise
      returns a [result]. *)

From stdpp Require Import base numbers list.
From Stdlib Require Import QArith Qcanon Qround Lqa.

Local Close Scope Q_scope.
Local Open Scope Qc_scope.

(** ** Samples *)

Inductive float : Type :=
  | Fin (q : Qc)
  | PInf
  | NInf
  | NaN.

#[global] Instance float_eq_dec : EqDecision float.
Proof. solve_decision. Defined.

Definition half : Qc := Q2Qc (1 # 2).
Definition quarter : Qc := Q2Qc (1 # 4).

Definition is_finite (x : float) : Prop :=
  match x with Fin _ => True | _ => False end.

(** Sign of a sample, as a comparison with zero; NaN has none and is never
    asked for one. *)
Definition fsgn (x : float) : comparison :=
  match x with
  | Fin q => q ?= 0
  | PInf => Gt
  | NInf => Lt
  | NaN => Eq
  end.

Definition sgn_mul (a b : comparison) : comparison :=
  match a, b with
  | Eq, _ | _, Eq => Eq
  | Gt, Gt | Lt, Lt => Gt
  | Gt, Lt | Lt, Gt => Lt
  end.

(** The infinity of a given sign; the sign of [0 * inf] and of [0 / 0] is
    [Eq], which yields NaN. *)
Definition signed_inf (s : comparison) : float :=
  match s with Gt => PInf | Lt => NInf | Eq => NaN end.

Definition fopp (x : float) : float :=
  match x with
  | Fin q => Fin (- q)
  | PInf => NInf
  | NInf => PInf
  | NaN => NaN
  end.

Definition fadd (x y : float) : float :=
  match x, y with
  | NaN, _ | _, NaN => NaN
  | Fin a, Fin b => Fin (a + b)
  | PInf, NInf | NInf, PInf => NaN
  | PInf, _ | _, PInf => PInf
  | NInf, _ | _, NInf => NInf
  end.

Definition fsub (x y : float) : float := fadd x (fopp y).

Definition fmul (x y : float) : float :=
  match x, y with
  | NaN, _ | _, NaN => NaN
  | Fin a, Fin b => Fin (a * b)
  | _, _ => signed_inf (sgn_mul (fsgn x) (fsgn y))
  end.

Definition fdiv (x y : float) : float :=
  match x, y with
  | NaN, _ | _, NaN => NaN
  | Fin a, Fin b =>
      match b ?= 0 with
      | Eq => signed_inf (a ?= 0)
      | _ => Fin (a / b)
      end
  | Fin _, _ => Fin 0
  | _, Fin b => signed_inf (sgn_mul (fsgn x) (match b ?= 0 with Lt => Lt | _ => Gt end))
  | _, _ => NaN
  end.

(** Order on samples that are not NaN: [NInf < Fin _ < PInf]. *)
Definition fleb (x y : float) : bool :=
  match x, y with
  | NaN, _ | _, NaN => false
  | NInf, _ | _, PInf => true
  | Fin a, Fin b => match a ?= b with Gt => false | _ => true end
  | _, _ => false
  end.

(** Maximum and minimum propagate NaN. *)
Definition fmax (x y : float) : float :=
  match x, y with
  | NaN, _ | _, NaN => NaN
  | _, _ => if fleb x y then y else x
  end.

Definition fmin (x y : float) : float :=
  match x, y with
  | NaN, _ | _, NaN => NaN
  | _, _ => if fleb x y then x else y
  end.

Definition fabs (x : float) : float :=
  match x with
  | Fin q => Fin (match q ?= 0 with Lt => - q | _ => q end)
  | PInf | NInf => PInf
  | NaN => NaN
  end.

Local Close Scope Qc_scope.

(** ** Exceptions *)

Inductive error : Type :=
  | IndexError
  | TypeError
  | ValueError
  | OverflowError
  | ZeroDivisionError.

Inductive result (A : Type) : Type :=
  | Ok (a : A)
  | Raise (e : error).
Arguments Ok {A} a.
Arguments Raise {A} e.

#[global] Instance error_eq_dec : EqDecision error.
Proof. solve_decision. Defined.

#[global] Instance result_eq_dec `{EqDecision A} : EqDecision (result A).
Proof. solve_decision. Defined.

#[global] Instance result_ret : MRet result := λ A a, Ok a.
#[global] Instance result_bind : MBind result := λ A B k m,
  match m with
  | Ok a => k a
  | Raise e => Raise e
  end.

(** ** Tensors *)

Record ndarray : Type := NDArray {
  height : nat;
  width : nat;
  channels : nat;
  rows : list (list (list float))
}.

#[global] Instance ndarray_eq_dec : EqDecision ndarray.
Proof. solve_decision. Defined.

Definition shape : Type := (nat * nat * nat)%type.

(** [tf.shape(tensor).eval()] *)
Definition tf_shape (t : ndarray) : shape := (height t, width t, channels t).

(** The rows agree with the recorded shape. *)
Definition wf_rows (h w c : nat) (rs : list (list (list float))) : Prop :=
  length rs = h ∧ Forall (λ r, length r = w ∧ Forall (λ p, length p = c) r) rs.

Definition wf (t : ndarray) : Prop :=
  wf_rows (height t) (width t) (channels t) (rows t).

Definition has_shape (s : shape) (t : ndarray) : Prop :=
  tf_shape t = s ∧ wf t.

(** A property of every sample. *)
Definition all_samples (P : float → Prop) (t : ndarray) : Prop :=
  Forall (Forall (Forall P)) (rows t).

Definition finite_tensor (t : ndarray) : Prop := all_samples is_finite t.

(** A tensor of the given shape filled with one value
    ([np.zeros], [tf.ones], [np.full]). *)
Definition full (s : shape) (v : float) : ndarray :=
  let '(h, w, c) := s in
  NDArray h w c (replicate h (replicate w (replicate c v))).

Definition np_zeros (s : shape) : ndarray := full s (Fin 0).
Definition tf_ones (s : shape) : ndarray := full s (Fin 1).

(** Elementwise operation against a scalar (broadcast over the tensor). *)
Definition tmap (f : float → float) (t : ndarray) : ndarray :=
  NDArray (height t) (width t) (channels t)
    (fmap (M:=list) (fmap (M:=list) (fmap (M:=list) f)) (rows t)).

(** Elementwise operation on two tensors of one shape. *)
Definition tzip (f : float → float → float) (a b : ndarray) : ndarray :=
  NDArray (height a) (width a) (channels a)
    (zip_with (zip_with (zip_with f)) (rows a) (rows b)).

Definition tf_subtract_scalar (t : ndarray) (s : float) : ndarray :=
  tmap (λ v, fsub v s) t.
Definition tf_multiply_scalar (t : ndarray) (s : float) : ndarray :=
  tmap (λ v, fmul v s) t.
Definition tf_divide_scalar (t : ndarray) (s : float) : ndarray :=
  tmap (λ v, fdiv v s) t.
Definition tf_subtract (a b : ndarray) : ndarray := tzip fsub a b.
Definition tf_maximum (a b : ndarray) : ndarray := tzip fmax a b.

(** ** crease *)

Definition crease (tensor : ndarray) : ndarray :=
  let temp := tf_subtract_scalar tensor (Fin half) in
  let temp := tf_multiply_scalar temp (Fin 2) in
  let temp := tf_maximum temp (tf_multiply_scalar temp (Fin (-1))) in
  let temp := tf_subtract (tf_ones (tf_shape temp)) temp in
  temp.

(** The formula of the description, [1 - |2 * (v - 0.5)|], on one sample. *)
Definition crease_formula (v : float) : float :=
  fsub (Fin 1) (fabs (fmul (Fin 2) (fsub v (Fin half)))).

(** The three samples named in the description of [crease]. *)
Definition three_levels : ndarray := NDArray 1 3 1 [[[Fin 0]; [Fin half]; [Fin 1]]].

(** A sample in the closed unit interval. *)
Definition in_unit (v : float) : Prop :=
  match v with Fin q => (0 ≤ q ∧ q ≤ 1)%Qc | _ => False end.

(** ** Python and NumPy scalars and indexing *)

Definition Qc_of_nat (n : nat) : Qc := Qc_of_Z (Z.of_nat n).

(** [int(x)] on a finite float: truncation towards zero. *)
Definition trunc (q : Qc) : Z :=
  match (q ?= 0)%Qc with
  | Lt => Qceiling q
  | _ => Qfloor q
  end.

(** [int(x)] on a float: NaN and the infinities have no integer value. *)
Definition py_int (x : float) : result Z :=
  match x with
  | Fin q => Ok (trunc q)
  | NaN => Raise ValueError
  | PInf | NInf => Raise OverflowError
  end.

(** [int(a)] on a one-dimensional array: only an array of one element
    converts to a scalar. *)
Definition np_int (a : list float) : result Z :=
  match a with
  | [x] => py_int x
  | _ => Raise TypeError
  end.

(** [a % b] on integers: the result has the sign of [b]. *)
Definition py_mod (a b : Z) : result Z :=
  if decide (b = 0)%Z then Raise ZeroDivisionError else Ok (a mod b)%Z.

(** [a[i]]: a negative index counts from the end; an index outside
    [-len, len) raises. *)
Definition np_getitem {A} (a : list A) (i : Z) : result A :=
  let n := Z.of_nat (length a) in
  let j := if decide (i < 0)%Z then (i + n)%Z else i in
  if decide (0 ≤ j < n)%Z then
    match a !! Z.to_nat j with
    | Some v => Ok v
    | None => Raise IndexError
    end
  else Raise IndexError.

(** [a[y][x] = v] on an array of shape (h, w, c): [v] must have [c]
    elements, or one element that is broadcast. *)
Definition np_setitem (a : ndarray) (y x : Z) (v : list float) : result ndarray :=
  row ← np_getitem (rows a) y;
  _ ← np_getitem row x;
  v ← (if decide (length v = channels a) then Ok v
       else match v with
            | [s] => Ok (replicate (channels a) s)
            | _ => Raise ValueError
            end);
  let yi := Z.to_nat (y mod Z.of_nat (length (rows a))) in
  let xi := Z.to_nat (x mod Z.of_nat (length row)) in
  Ok (NDArray (height a) (width a) (channels a)
        (alter (λ r, <[xi := v]> r) yi (rows a))).

(** [for i in l: s = body(s, i)], stopping at the first exception. *)
Fixpoint for_each {S A} (l : list A) (s : S) (body : S → A → result S) : result S :=
  match l with
  | [] => Ok s
  | i :: l => s' ← body s i; for_each l s' body
  end.

(** ** TensorFlow and scikit-image operations *)

#[global] Instance float_inhabited : Inhabited float := populate NaN.

Definition sample_at (t : ndarray) (i j k : nat) : float :=
  ((rows t !!! i) !!! j) !!! k.

Definition samples (t : ndarray) : list float := concat (concat (rows t)).

(** [tf.reduce_min] and [tf.reduce_max] over all axes; over no samples
    they return the identities of min and max. *)
Definition tf_reduce_min (t : ndarray) : float := foldr fmin PInf (samples t).
Definition tf_reduce_max (t : ndarray) : float := foldr fmax NInf (samples t).

(** [tf.image.convert_image_dtype(image, tf.float32, saturate=True)] on a
    floating-point image: a cast, which leaves the values as they are. *)
Definition convert_image_dtype (image : ndarray) : ndarray := image.

(** The same conversion on an integer image scales by the largest value
    of the integer type; the kernels are arrays of 64-bit integers. *)
Definition int64_max : Z := 9223372036854775807.

Definition convert_image_dtype_int (s : shape) (image : list (list (list Z))) : ndarray :=
  let '(h, w, c) := s in
  NDArray h w c
    (fmap (M:=list) (fmap (M:=list) (fmap (M:=list)
       (λ z, Fin (Qc_of_Z z / Qc_of_Z int64_max)%Qc))) image).

(** Luma weights of [tf.image.rgb_to_grayscale]. *)
Definition rgb_weights : list float :=
  [Fin (Q2Qc (2989 # 10000)); Fin (Q2Qc (5870 # 10000)); Fin (Q2Qc (1140 # 10000))].

(** [tf.image.rgb_to_grayscale]: the weighted sum over the last axis, kept
    as an axis of size one.  The product with the three weights is only
    defined for three channels; other shapes are rejected when the
    operation is built. *)
Definition tf_rgb_to_grayscale (images : ndarray) : result ndarray :=
  if decide (channels images = 3) then
    Ok (NDArray (height images) (width images) 1
          (fmap (M:=list) (fmap (M:=list)
             (λ p, [foldl fadd (Fin 0) (zip_with fmul p rgb_weights)]))
             (rows images)))
  else Raise ValueError.

(** One axis of [np.pad(..., "wrap")] with [p] elements on each side, for
    [p] at most the length of the axis. *)
Definition pad_wrap {A} (p : nat) (l : list A) : list A :=
  drop (length l - p) l ++ l ++ take p l.

(** [pad(a, ((ph, ph), (pw, pw), (0, 0)), "wrap")] *)
Definition np_pad_wrap (a : ndarray) (ph pw : nat) : ndarray :=
  NDArray (height a + 2 * ph) (width a + 2 * pw) (channels a)
    (pad_wrap ph (pad_wrap pw <$> rows a)).

(** [tf.nn.depthwise_conv2d([input], filter, [1,1,1,1], "VALID")[0]] with
    a filter of shape (kh, kw, channels, 1): every channel is correlated
    with its own copy of the weights, and the window must fit. *)
Definition tf_depthwise_conv2d (input filter : ndarray) : result ndarray :=
  let kh := height filter in
  let kw := width filter in
  if decide (kh ≤ height input ∧ kw ≤ width input) then
    let oh := height input - kh + 1 in
    let ow := width input - kw + 1 in
    Ok (NDArray oh ow (channels input)
          ((λ i, (λ j, (λ k,
              foldl fadd (Fin 0)
                (di ← seq 0 kh; dj ← seq 0 kw;
                 [fmul (sample_at input (i + di) (j + dj) k) (sample_at filter di dj k)]))
            <$> seq 0 (channels input))
            <$> seq 0 ow)
            <$> seq 0 oh))
  else Raise ValueError.

(** One axis of [skimage.util.crop]: the slice [c : len - c]. *)
Definition crop_axis {A} (c : nat) (l : list A) : list A :=
  take (length l - c - c) (drop c l).

(** [crop(a, ((ch, ch), (cw, cw), (0, 0)))]: a negative width is
    rejected. *)
Definition crop (a : ndarray) (ch cw : Z) : result ndarray :=
  if decide (ch < 0 ∨ cw < 0)%Z then Raise ValueError
  else
    let ch := Z.to_nat ch in
    let cw := Z.to_nat cw in
    Ok (NDArray (height a - ch - ch) (width a - cw - cw) (channels a)
          (crop_axis ch (crop_axis cw <$> rows a))).

(** [np.repeat(a, n)] on the flattened array. *)
Definition np_repeat {A} (a : list A) (n : nat) : list A :=
  x ← a; replicate n x.

(** [tf.reshape(a, (h, w, c, 1))] of a flat array; the sizes must agree.
    The trailing axis of size one is left implicit. *)
Definition tf_reshape {A} (a : list A) (s : shape) : result (list (list (list A))) :=
  let '(h, w, c) := s in
  if decide (length a = h * w * c) then
    Ok (reshape (replicate h w) (reshape (replicate (h * w) c) a))
  else Raise ValueError.

(** Broadcasting of arrays of rank three: along each axis the two extents
    are equal or one of them is 1, and the array of extent 1 is repeated. *)
Definition broadcast_extent (a b : nat) : option nat :=
  if decide (a = b) then Some a
  else if decide (a = 1) then Some b
  else if decide (b = 1) then Some a
  else None.

Definition broadcast_shapes (s1 s2 : shape) : option shape :=
  let '(h1, w1, c1) := s1 in
  let '(h2, w2, c2) := s2 in
  h ← broadcast_extent h1 h2;
  w ← broadcast_extent w1 w2;
  c ← broadcast_extent c1 c2;
  Some (h, w, c).

Definition stretch {A} (n m : nat) (l : list A) : list A :=
  if decide (n = m) then l
  else match l with
       | [x] => replicate m x
       | _ => l
       end.

Definition broadcast_to (t : ndarray) (s : shape) : ndarray :=
  let '(h, w, c) := s in
  NDArray h w c
    (stretch (height t) h
       ((λ r, stretch (width t) w ((λ p, stretch (channels t) c p) <$> r))
          <$> rows t)).

(** [a - b] on tensors: elementwise after broadcasting; shapes that do
    not broadcast are rejected. *)
Definition tensor_sub (a b : ndarray) : result ndarray :=
  match broadcast_shapes (tf_shape a) (tf_shape b) with
  | Some s => Ok (tf_subtract (broadcast_to a s) (broadcast_to b s))
  | None => Raise ValueError
  end.

(** ** Convolution kernels *)

Inductive ConvKernel : Type :=
  | emboss
  | shadow
  | edges
  | sharpen
  | unsharp_mask.

Definition value (k : ConvKernel) : list (list Z) :=
  match k with
  | emboss =>
      [ [ 0;  2;  4 ];
        [ -2;  1;  2 ];
        [ -4; -2;  0 ] ]
  | shadow =>
      [ [  0;  1;  1;  1;  1;  1;  1 ];
        [ -1;  0;  2;  2;  1;  1;  1 ];
        [ -1; -2;  0;  4;  2;  1;  1 ];
        [ -1; -2; -4;  8;  4;  2;  1 ];
        [ -1; -1; -2; -4;  0;  2;  1 ];
        [ -1; -1; -1; -2; -2;  0;  1 ];
        [ -1; -1; -1; -1; -1; -1;  0 ] ]
  | edges =>
      [ [ 1;   2; 1 ];
        [ 2; -12; 2 ];
        [ 1;   2; 1 ] ]
  | sharpen =>
      [ [  0; -1;  0 ];
        [ -1;  5; -1 ];
        [  0; -1;  0 ] ]
  | unsharp_mask =>
      [ [ 1;  4;    6;  4; 1 ];
        [ 4; 16;   24; 16; 4 ];
        [ 6; 24; -476; 24; 6 ];
        [ 4; 16;   24; 16; 4 ];
        [ 1;  4;    6;  4; 1 ] ]
  end%Z.

(** ** normalize *)

Definition normalize (tensor : ndarray) : ndarray :=
  tf_divide_scalar
    (tf_subtract_scalar tensor (tf_reduce_min tensor))
    (fsub (tf_reduce_max tensor) (tf_reduce_min tensor)).

(** The linear rescaling of the description, on one finite sample. *)
Definition rescale (lo hi q : Qc) : Qc := ((q - lo) / (hi - lo))%Qc.



(** ** convolve *)

(** Side length of a kernel, [len(kernel.value)]. *)
Definition side (k : ConvKernel) : nat := length (value k).

Definition _conform_kernel_to_tensor (kernel : list (list Z)) (tensor : ndarray)
    : result ndarray :=
  let l := length kernel in
  let channels := channels tensor in
  let temp := np_repeat (concat kernel) channels in
  temp ← tf_reshape temp (l, l, channels);
  let temp := convert_image_dtype_int (l, l, channels) temp in
  mret temp.

Definition convolve (kernel : ConvKernel) (tensor : ndarray) : result ndarray :=
  let '(height, width, channels) := tf_shape tensor in
  kernel ← _conform_kernel_to_tensor (value kernel) tensor;
  let pad_height := Z.to_nat (trunc (Qc_of_nat height * quarter)%Qc) in
  let pad_width := Z.to_nat (trunc (Qc_of_nat width * quarter)%Qc) in
  let tensor := np_pad_wrap tensor pad_height pad_width in
  tensor ← tf_depthwise_conv2d tensor kernel;
  let '(post_height, post_width, channels) := tf_shape tensor in
  let crop_height := trunc (Qc_of_Z (Z.of_nat post_height - Z.of_nat height) * half)%Qc in
  let crop_width := trunc (Qc_of_Z (Z.of_nat post_width - Z.of_nat width) * half)%Qc in
  tensor ← crop tensor crop_height crop_width;
  let tensor := normalize tensor in
  mret tensor.

(** ** resample *)

(** [skimage.transform.resize(image, output_shape, mode="wrap",
    order=order, preserve_range=True)] is library code; the development
    is stated for any function [resize] that honours this contract:
    the result has the requested shape; resizing a non-empty image to
    positive dimensions with a supported spline order succeeds; and an
    image of one finite value is resized to an image of that value. *)
Record resize_contract (resize : ndarray → shape → Z → result ndarray) : Prop := {
  resize_shape : ∀ image s order out,
    wf image → resize image s order = Ok out → has_shape s out;
  resize_defined : ∀ image h w order,
    wf image → 0 < height image → 0 < width image → 0 < h → 0 < w →
    order ∈ [0; 1; 3]%Z →
    ∃ out, resize image (h, w, channels image) order = Ok out;
  resize_constant : ∀ s q h w order out,
    0 < s.1.1 → 0 < s.1.2 → 0 < h → 0 < w →
    resize (full s (Fin q)) (h, w, s.2) order = Ok out →
    out = full (h, w, s.2) (Fin q)
}.

(** Nearest-neighbour sampling, an instance of the contract.  A target
    without rows or columns divides by zero when the scale is computed. *)
Definition resize_nearest (image : ndarray) (s : shape) (order : Z) : result ndarray :=
  let '(h, w, c) := s in
  if decide (h = 0 ∨ w = 0) then Raise ZeroDivisionError
  else if decide (height image = 0 ∨ width image = 0) then Raise ValueError
  else
    Ok (NDArray h w c
          ((λ i, (λ j, (λ k,
              sample_at image (i * height image / h) (j * width image / w)
                (k * channels image / c))
            <$> seq 0 c)
            <$> seq 0 w)
            <$> seq 0 h)).

Section resample.

Variable resize : ndarray → shape → Z → result ndarray.

Definition resample (tensor : ndarray) (width height : nat) (spline_order : Z) : result ndarray :=
  let '(_height, _width, channels) := tf_shape tensor in
  let downcast := tensor in
  downcast ← resize downcast (height, width, channels) spline_order;
  mret (convert_image_dtype downcast).

(** ** wavelet *)

Definition wavelet (tensor : ndarray) : result ndarray :=
  let '(height, width, channels) := tf_shape tensor in
  down ← resample tensor
            (Z.to_nat (trunc (Qc_of_nat width * half)%Qc))
            (Z.to_nat (trunc (Qc_of_nat height * half)%Qc)) 3;
  up ← resample down width height 3;
  tensor_sub tensor up.

End resample.

(** ** displace *)

(** The body of the loop over [x] and [y]: it reads [reference] twice and
    [tensor] once, and writes one pixel of [temp]. *)
Definition displace_pixel (tensor reference : ndarray)
    (base_x_offset base_y_offset : Z) (temp : ndarray) (x y : nat) : result ndarray :=
  let height := Z.of_nat (height tensor) in
  let width := Z.of_nat (width tensor) in
  let x := Z.of_nat x in
  let y := Z.of_nat y in
  i ← py_mod (y + base_y_offset) height;
  r ← np_getitem (rows reference) i;
  p ← np_getitem r x;
  d ← np_int ((λ v, fmul v (Fin (Qc_of_Z width))) <$> p);
  x_offset ← py_mod (x + d) width;
  r ← np_getitem (rows reference) y;
  j ← py_mod (x + base_x_offset) width;
  p ← np_getitem r j;
  d ← np_int ((λ v, fmul v (Fin (Qc_of_Z height))) <$> p);
  y_offset ← py_mod (y + d) height;
  r ← np_getitem (rows tensor) y_offset;
  p ← np_getitem r x_offset;
  np_setitem temp y x p.

(** The two calls of [random.random()] are the arguments [random_x] and
    [random_y], in the order they are drawn. *)
Definition displace (tensor : ndarray) (displacement : float) (random_x random_y : Qc)
    : result ndarray :=
  let shape := tf_shape tensor in
  let '(height, width, channels) := shape in
  reference ← (if decide (2 < channels) then tf_rgb_to_grayscale tensor else Ok tensor);
  let reference := tf_subtract_scalar reference (Fin half) in
  let reference := tf_multiply_scalar reference (fmul (Fin 2) displacement) in
  let temp := np_zeros shape in
  let base_x_offset := trunc (random_x * Qc_of_nat width)%Qc in
  let base_y_offset := trunc (random_y * Qc_of_nat height)%Qc in
  temp ← for_each (seq 0 width) temp (λ temp x,
           for_each (seq 0 height) temp (λ temp y,
             displace_pixel tensor reference base_x_offset base_y_offset temp x y));
  mret (convert_image_dtype temp).

(** The pixel (the channel values) at row [y] and column [x], if any. *)
Definition pixel_at (t : ndarray) (y x : nat) : option (list float) :=
  rows t !! y ≫= λ r, r !! x.

(** An outcome that is not an out-of-bounds access and not a modulo by
    zero, and whose value, if any, satisfies [P]. *)
Definition in_bounds {A} (P : A → Prop) (r : result A) : Prop :=
  match r with
  | Ok a => P a
  | Raise e => e ≠ IndexError ∧ e ≠ ZeroDivisionError
  end.

(** A one-row tensor with two different pixels, and an impulse image, on
    which the statements below are instantiated. *)
Definition two_pixels : ndarray := NDArray 1 2 1 [[[Fin 0]; [Fin 1]]].

Definition impulse : ndarray :=
  NDArray 4 4 1
    ([[Fin 1]; [Fin 0]; [Fin 0]; [Fin 0]] :: replicate 3 (replicate 4 [Fin 0])).

(** The impulse sharpened: the centre weight 5 lands on the impulse and
    becomes the maximum 1, the four neighbours (with wraparound) get the
    weight -1 and become the minimum 0, and every other sample is 1/6. *)
Definition sharpened_impulse : ndarray :=
  NDArray 4 4 1
    (fmap (M:=list) (fmap (M:=list) (λ q, [Fin (Q2Qc q)]))
       [ [ 1;     0;     1 # 6; 0     ];
         [ 0;     1 # 6; 1 # 6; 1 # 6 ];
         [ 1 # 6; 1 # 6; 1 # 6; 1 # 6 ];
         [ 0;     1 # 6; 1 # 6; 1 # 6 ] ]%Q).

(** The tensor moved cyclically by [dy] rows and [dx] columns: pixel
    (y, x) of the result is pixel ((y + dy) mod height, (x + dx) mod width)
    of the input. *)
Definition cyclic_shift (t : ndarray) (dy dx : Z) : ndarray :=
  NDArray (height t) (width t) (channels t)
    ((λ y, (λ x,
        (rows t !!! Z.to_nat ((Z.of_nat y + dy) mod Z.of_nat (height t)))
          !!! Z.to_nat ((Z.of_nat x + dx) mod Z.of_nat (width t)))
      <$> seq 0 (width t))
      <$> seq 0 (height t)).

(** ** Closed forms used in the further properties *)

(** One weight of a conformed kernel: the integer scaled by the largest
    64-bit integer. *)
Definition kernel_weight (z : Z) : float :=
  Fin (Qc_of_Z z / Qc_of_Z int64_max)%Qc.

(** The depthwise filter with the weights of [kernel] copied to every one
    of [c] channels. *)
Definition depthwise_filter (kernel : list (list Z)) (c : nat) : ndarray :=
  NDArray (length kernel) (length kernel) c
    (fmap (M:=list) (fmap (M:=list) (λ z, replicate c (kernel_weight z))) kernel).

(** * Properties *)

Local Open Scope Qc_scope.

(** ** Rational arithmetic *)

(** Goals and hypotheses over [Qc] are moved to [Q], where [lra] decides
    linear arithmetic. *)
Lemma Qc_eq_Qeq (x y : Qc) : x = y ↔ (this x == this y)%Q.
Proof. split; [by intros -> | apply Qc_is_canon]. Qed.

Lemma eq_Qeq (x y : Q) : x = y → (x == y)%Q.
Proof. by intros ->. Qed.

Lemma Qccompare_Eq (x y : Qc) : (x ?= y) = Eq ↔ x = y.
Proof. symmetry. apply Qceq_alt. Qed.

Lemma Qccompare_Gt (x y : Qc) : (x ?= y) = Gt ↔ y < x.
Proof. symmetry. apply Qcgt_alt. Qed.

Ltac qc_to_q :=
  unfold half, quarter in *;
  repeat match goal with
  | H : (_ ?= _) = Eq |- _ => apply Qccompare_Eq in H
  | H : (?x ?= ?y) = Lt |- _ => change (this x < this y)%Q in H
  | H : (_ ?= _) = Gt |- _ => apply Qccompare_Gt in H
  | H : @eq Qc _ _ |- _ => apply Qc_eq_Qeq in H
  | H : ¬ @eq Qc _ _ |- _ => rewrite Qc_eq_Qeq in H
  | |- @eq Qc _ _ => apply Qc_is_canon
  | |- ¬ @eq Qc _ _ => rewrite Qc_eq_Qeq
  end;
  unfold rescale, Qcle, Qclt, Qcminus, Qcdiv, Qcinv, Qcplus, Qcmult, Qcopp, Q2Qc in *;
  cbn [this] in *;
  rewrite ?Qred_correct in *.

Ltac qc_lra := qc_to_q; lra.

Ltac case_compare :=
  match goal with
  | |- context [?x ?= ?y] => destruct (x ?= y) eqn:?
  end.

Lemma crease_sample (v : float) :
  fsub (Fin 1)
    (fmax (fmul (fsub v (Fin half)) (Fin 2))
          (fmul (fmul (fsub v (Fin half)) (Fin 2)) (Fin (-1))))
  = crease_formula v.
Proof.
  unfold crease_formula.
  destruct v as [q| | |]; try done.
  cbn -[Qcplus Qcmult Qcopp Qccompare half].
  do 2 f_equal.
  repeat case_compare; f_equal; qc_lra.
Qed.

(** ** Elementwise operations *)

Lemma zip_with_replicate_fmap {A B C D} (f : A → B → C) (g : D → B) c n (l : list D) :
  length l = n → zip_with f (replicate n c) (g <$> l) = (λ v, f c (g v)) <$> l.
Proof.
  intros <-. induction l as [|x l IH]; [done|]. cbn. by rewrite IH.
Qed.

Lemma zip_with_fmap_fmap {A B C D} (f : A → B → C) (g : D → A) (h : D → B) (l : list D) :
  zip_with f (g <$> l) (h <$> l) = (λ v, f (g v) (h v)) <$> l.
Proof. induction l as [|x l IH]; [done|]. cbn. by rewrite IH. Qed.

Lemma fmap_ext_Forall {A B} (f g : A → B) (l : list A) :
  Forall (λ x, f x = g x) l → f <$> l = g <$> l.
Proof. induction 1 as [|x l Hx _ IH]; [done|]. cbn. by rewrite Hx, IH. Qed.

Lemma wf_full (s : shape) (v : float) : wf (full s v).
Proof.
  destruct s as [[h w] c]. split; cbn.
  - apply length_replicate.
  - apply Forall_replicate. split; [apply length_replicate|].
    apply Forall_replicate, length_replicate.
Qed.

Lemma has_shape_full (s : shape) (v : float) : has_shape s (full s v).
Proof. split; [by destruct s as [[h w] c] | apply wf_full]. Qed.

Lemma wf_tmap (f : float → float) (t : ndarray) : wf t → wf (tmap f t).
Proof.
  intros [Hh Hr]. split; cbn.
  - by rewrite length_fmap.
  - apply Forall_fmap. eapply Forall_impl; [exact Hr|].
    intros r [Hw Hp]. cbn. rewrite length_fmap. split; [done|].
    apply Forall_fmap. eapply Forall_impl; [exact Hp|].
    intros p Hc. cbn. by rewrite length_fmap.
Qed.

Lemma tf_shape_tmap (f : float → float) (t : ndarray) :
  tf_shape (tmap f t) = tf_shape t.
Proof. done. Qed.

Lemma tmap_tmap (f g : float → float) (t : ndarray) :
  tmap f (tmap g t) = tmap (f ∘ g) t.
Proof.
  unfold tmap. cbn. f_equal.
  rewrite <- list_fmap_compose. apply list_fmap_ext. intros _ r _. cbn.
  rewrite <- list_fmap_compose. apply list_fmap_ext. intros _ p _. cbn.
  by rewrite <- list_fmap_compose.
Qed.

Lemma tmap_ext (f g : float → float) (t : ndarray) :
  (∀ v, f v = g v) → tmap f t = tmap g t.
Proof.
  intros Hfg. unfold tmap. f_equal.
  apply list_fmap_ext. intros _ r _. apply list_fmap_ext. intros _ p _.
  apply list_fmap_ext. intros _ v _. apply Hfg.
Qed.

Lemma tmap_full (f : float → float) (s : shape) (v : float) :
  tmap f (full s v) = full s (f v).
Proof.
  destruct s as [[h w] c]. unfold tmap, full. cbn. f_equal.
  by rewrite !fmap_replicate.
Qed.

Lemma tzip_tmap_tmap (f : float → float → float) (g h : float → float) (t : ndarray) :
  tzip f (tmap g t) (tmap h t) = tmap (λ v, f (g v) (h v)) t.
Proof.
  unfold tzip, tmap. cbn. f_equal.
  rewrite zip_with_fmap_fmap. apply list_fmap_ext. intros _ r _.
  rewrite zip_with_fmap_fmap. apply list_fmap_ext. intros _ p _.
  apply zip_with_fmap_fmap.
Qed.

Lemma tzip_full_tmap (f : float → float → float) (g : float → float) c (t : ndarray) :
  wf t → tzip f (full (tf_shape t) c) (tmap g t) = tmap (λ v, f c (g v)) t.
Proof.
  intros [Hh Hr]. unfold tzip, tmap, full, tf_shape. cbn. f_equal.
  rewrite zip_with_replicate_fmap by done.
  apply fmap_ext_Forall. eapply Forall_impl; [exact Hr|]. intros r [Hw Hp]. cbn.
  rewrite zip_with_replicate_fmap by done.
  apply fmap_ext_Forall. eapply Forall_impl; [exact Hp|]. intros p Hc. cbn.
  by rewrite zip_with_replicate_fmap.
Qed.

Lemma all_samples_tmap (P : float → Prop) (f : float → float) (t : ndarray) :
  all_samples (λ v, P (f v)) t → all_samples P (tmap f t).
Proof.
  unfold all_samples, tmap. cbn. intros H.
  apply Forall_fmap. eapply Forall_impl; [exact H|]. intros r Hr. cbn.
  apply Forall_fmap. eapply Forall_impl; [exact Hr|]. intros p Hp. cbn.
  by apply Forall_fmap.
Qed.

Lemma all_samples_impl (P Q : float → Prop) (t : ndarray) :
  all_samples P t → (∀ v, P v → Q v) → all_samples Q t.
Proof.
  unfold all_samples. intros H HPQ.
  eapply Forall_impl; [exact H|]. intros r Hr.
  eapply Forall_impl; [exact Hr|]. intros p Hp.
  eapply Forall_impl; [exact Hp|]. done.
Qed.

(** ** crease *)

Lemma crease_tmap (t : ndarray) : wf t → crease t = tmap crease_formula t.
Proof.
  intros Hwf. unfold crease, tf_subtract, tf_maximum, tf_ones,
    tf_multiply_scalar, tf_subtract_scalar.
  rewrite !tmap_tmap, tzip_tmap_tmap, tf_shape_tmap, tzip_full_tmap by done.
  apply tmap_ext. intros v. cbn. apply crease_sample.
Qed.

Lemma crease_full (s : shape) (v : float) :
  crease (full s v) = full s (crease_formula v).
Proof. rewrite crease_tmap by apply wf_full. apply tmap_full. Qed.

Lemma crease_formula_Fin (q : Qc) :
  crease_formula (Fin q) =
  Fin (1 - match 2 * (q - half) ?= 0 with Lt => - (2 * (q - half)) | _ => 2 * (q - half) end).
Proof. done. Qed.

Lemma crease_formula_unit (v : float) : in_unit v → in_unit (crease_formula v).
Proof.
  destruct v as [q| | |]; try done. intros [H0 H1].
  rewrite crease_formula_Fin. cbn [in_unit].
  case_compare; split; qc_lra.
Qed.

Lemma crease_formula_sym (d : Qc) :
  crease_formula (Fin (half + d)) = crease_formula (Fin (half - d)).
Proof.
  rewrite !crease_formula_Fin. f_equal.
  repeat case_compare; qc_lra.
Qed.

Lemma crease_formula_0 : crease_formula (Fin 0) = Fin 0.
Proof. rewrite crease_formula_Fin. apply (f_equal Fin). by apply Qc_is_canon. Qed.

Lemma crease_formula_half : crease_formula (Fin half) = Fin 1.
Proof. rewrite crease_formula_Fin. apply (f_equal Fin). by apply Qc_is_canon. Qed.

Lemma crease_formula_1 : crease_formula (Fin 1) = Fin 0.
Proof. rewrite crease_formula_Fin. apply (f_equal Fin). by apply Qc_is_canon. Qed.

(** ** Samples of a tensor *)



Lemma all_samples_Forall (P : float → Prop) (t : ndarray) :
  all_samples P t ↔ Forall P (samples t).
Proof.
  unfold all_samples, samples. by rewrite !Forall_concat.
Qed.

Lemma concat_fmap_fmap {A B} (f : A → B) (ls : list (list A)) :
  concat (fmap (M:=list) (fmap f) ls) = f <$> concat ls.
Proof. induction ls as [|l ls IH]; [done|]. cbn. by rewrite fmap_app, IH. Qed.


(** ** Minimum and maximum of finite samples *)

Lemma fmin_Fin (a b : Qc) :
  fmin (Fin a) (Fin b) = Fin (match a ?= b with Gt => b | _ => a end).
Proof. cbn. by destruct (a ?= b). Qed.

Lemma fmax_Fin (a b : Qc) :
  fmax (Fin a) (Fin b) = Fin (match a ?= b with Gt => a | _ => b end).
Proof. cbn. by destruct (a ?= b). Qed.





(** ** normalize *)






Lemma normalize_tmap (t : ndarray) :
  normalize t =
  tmap (λ v, fdiv (fsub v (tf_reduce_min t))
                  (fsub (tf_reduce_max t) (tf_reduce_min t))) t.
Proof. unfold normalize, tf_divide_scalar, tf_subtract_scalar. by rewrite tmap_tmap. Qed.





Lemma samples_full (h w c : nat) (v : float) :
  samples (full (h, w, c) v) = replicate (h * w * c)%nat v.
Proof.
  unfold samples, full. cbn.
  assert (∀ A n m (x : A), concat (replicate n (replicate m x)) = replicate (n * m)%nat x) as Hc.
  { intros A n m x. induction n as [|n IH]; [done|]. cbn. by rewrite IH, replicate_add. }
  by rewrite !Hc.
Qed.

Lemma full_no_samples (h w c : nat) (x y : float) :
  (h * w * c = 0)%nat → full (h, w, c) x = full (h, w, c) y.
Proof.
  intros H. unfold full. f_equal.
  destruct h as [|h]; [done|]. destruct w as [|w]; [done|].
  destruct c as [|c]; [done|lia].
Qed.

Lemma foldr_fmin_replicate (n : nat) (q : Qc) :
  foldr fmin PInf (replicate (S n) (Fin q)) = Fin q.
Proof.
  induction n as [|n IH]; [done|].
  change (fmin (Fin q) (foldr fmin PInf (replicate (S n) (Fin q))) = Fin q).
  rewrite IH, fmin_Fin. by destruct (q ?= q).
Qed.

Lemma foldr_fmax_replicate (n : nat) (q : Qc) :
  foldr fmax NInf (replicate (S n) (Fin q)) = Fin q.
Proof.
  induction n as [|n IH]; [done|].
  change (fmax (Fin q) (foldr fmax NInf (replicate (S n) (Fin q))) = Fin q).
  rewrite IH, fmax_Fin. by destruct (q ?= q).
Qed.

Lemma fdiv_zero_zero (q : Qc) :
  fdiv (fsub (Fin q) (Fin q)) (fsub (Fin q) (Fin q)) = NaN.
Proof.
  cbn -[Qcplus Qcopp Qccompare Qcdiv].
  assert (q + - q = 0) as -> by ring. done.
Qed.

Example normalize_two_pixels : normalize two_pixels = two_pixels.
Proof. apply (bool_decide_unpack _). by vm_compute. Qed.

Lemma two_pixels_finite : finite_tensor two_pixels.
Proof. repeat constructor. Qed.


(** A constant tensor has maximum equal to minimum, and [normalize]
    divides zero by zero without any guard: for every shape and every
    finite value, [normalize] of the constant tensor returns the tensor
    of the same shape whose samples are all NaN. *)
Lemma normalize_constant_is_nan (s : shape) (q : Qc) :
  normalize (full s (Fin q)) = full s NaN.
Proof.
  destruct s as [[h w] c]. rewrite normalize_tmap, tmap_full.
  destruct (decide (h * w * c = 0)%nat) as [Hz|Hnz]; [by apply full_no_samples|].
  unfold tf_reduce_min, tf_reduce_max. rewrite samples_full.
  destruct (h * w * c)%nat as [|n]; [done|].
  by rewrite foldr_fmin_replicate, foldr_fmax_replicate, fdiv_zero_zero.
Qed.

(** C3.  The degenerate range is not handled: on the 2x2x1 tensor of
    value 0.5, where the maximum equals the minimum, [normalize] raises
    nothing and returns a tensor whose samples are all NaN, outside the
    range between 0 and 1 that its docstring promises. *)
Theorem normalize_constant_silent_nan :
  normalize (full (2, 2, 1)%nat (Fin half)) = full (2, 2, 1)%nat NaN ∧
  ¬ all_samples (λ v, v ≠ NaN) (normalize (full (2, 2, 1)%nat (Fin half))).
Proof.
  split; [by vm_compute|].
  intros H. apply all_samples_Forall in H. vm_compute in H.
  by apply Forall_cons in H as [? _].
Qed.





(** ** crease: the claims *)

(** C4, as amended.  [crease] maps the tensor of all 0.5 to the tensor of
    all 1, and the tensors of all 0 and of all 1 to the tensor of all 0;
    it is symmetric about 0.5: the constant tensors of value [0.5 + d]
    and [0.5 - d] have the same image. *)
Theorem crease_constants (s : shape) :
  crease (full s (Fin half)) = full s (Fin 1) ∧
  crease (full s (Fin 0)) = full s (Fin 0) ∧
  crease (full s (Fin 1)) = full s (Fin 0) ∧
  ∀ d : Qc, crease (full s (Fin (half + d))) = crease (full s (Fin (half - d))).
Proof.
  rewrite !crease_full, crease_formula_half, crease_formula_0, crease_formula_1.
  split_and!; try done.
  intros d. by rewrite !crease_full, crease_formula_sym.
Qed.

(** C4 as stated fails: the image of the 1x1x1 tensor of value 0.5 is
    not the tensor of value 0, and the image of the tensor of value 0 is
    not the tensor of value 1. *)
Lemma crease_midpoint_is_not_zero :
  crease (full (1, 1, 1)%nat (Fin half)) ≠ full (1, 1, 1)%nat (Fin 0) ∧
  crease (full (1, 1, 1)%nat (Fin 0)) ≠ full (1, 1, 1)%nat (Fin 1).
Proof.
  rewrite !crease_full, crease_formula_half, crease_formula_0.
  split; intros [= H]; by apply (f_equal this) in H.
Qed.

(** C6.  On every tensor [crease] computes [1 - |2 * (v - 0.5)|] at each
    sample; the samples 0, 0.5 and 1 are mapped to 0, 1 and 0; and when
    every sample of the input lies in [0, 1], so does every sample of the
    output. *)
Theorem crease_ridge (t : ndarray) :
  wf t →
  crease t = tmap crease_formula t ∧
  crease three_levels = NDArray 1 3 1 [[[Fin 0]; [Fin 1]; [Fin 0]]] ∧
  (all_samples in_unit t → all_samples in_unit (crease t)).
Proof.
  intros Hwf. rewrite crease_tmap by done.
  split_and!; [done| |].
  - rewrite crease_tmap by repeat constructor. unfold tmap, three_levels.
    cbn [rows height width channels fmap list_fmap].
    by rewrite crease_formula_0, crease_formula_half, crease_formula_1.
  - intros H. apply all_samples_tmap. eapply all_samples_impl; [exact H|].
    apply crease_formula_unit.
Qed.

Lemma two_pixels_wf : wf two_pixels.
Proof. repeat constructor. Qed.

Lemma two_pixels_in_unit : all_samples in_unit two_pixels.
Proof. repeat constructor; by vm_compute. Qed.

Lemma crease_ridge_witness :
  wf two_pixels ∧ all_samples in_unit two_pixels ∧
  crease two_pixels = tmap crease_formula two_pixels ∧
  crease three_levels = NDArray 1 3 1 [[[Fin 0]; [Fin 1]; [Fin 0]]] ∧
  all_samples in_unit (crease two_pixels).
Proof.
  split; [exact two_pixels_wf|]. split; [exact two_pixels_in_unit|].
  destruct (crease_ridge two_pixels two_pixels_wf) as (H1 & H2 & H3).
  split; [exact H1|]. split; [exact H2|]. exact (H3 two_pixels_in_unit).
Defined.

(** ** Truncation *)

Lemma trunc_quarter (n : nat) :
  trunc (Qc_of_nat n * quarter) = Z.of_nat (n / 4).
Proof.
  unfold trunc, Qc_of_nat.
  assert (0 ≤ Qc_of_Z (Z.of_nat n) * quarter) as Hnn.
  { unfold Qc_of_Z. qc_to_q. pose proof (Nat2Z.is_nonneg n) as H.
    rewrite Zle_Qle in H. change (inject_Z 0) with 0%Q in H. lra. }
  destruct (_ ?= 0) eqn:Hc.
  2: { exfalso. revert Hnn. by apply Qclt_not_le. }
  all: unfold Qc_of_Z, quarter, Qcmult, Q2Qc; cbn [this];
    rewrite !Qred_correct; unfold Qfloor, Qmult, inject_Z; cbn [Qnum Qden Pos.mul];
    rewrite Z.mul_1_r; by rewrite Nat2Z.inj_div.
Qed.

Lemma trunc_half (z : Z) : (0 ≤ z)%Z → trunc (Qc_of_Z z * half) = (z / 2)%Z.
Proof.
  intros Hz. unfold trunc.
  assert (0 ≤ Qc_of_Z z * half) as Hnn.
  { unfold Qc_of_Z. qc_to_q.
    rewrite Zle_Qle in Hz. change (inject_Z 0) with 0%Q in Hz. lra. }
  destruct (_ ?= 0) eqn:Hc.
  2: { exfalso. revert Hnn. by apply Qclt_not_le. }
  all: unfold Qc_of_Z, half, Qcmult, Q2Qc; cbn [this];
    rewrite !Qred_correct; unfold Qfloor, Qmult, inject_Z; cbn [Qnum Qden Pos.mul];
    by rewrite Z.mul_1_r.
Qed.

(** ** convolve *)

Local Close Scope Qc_scope.

Lemma length_np_repeat {A} (a : list A) (n : nat) :
  length (np_repeat a n) = length a * n.
Proof.
  unfold np_repeat. induction a as [|x a IH]; [done|].
  cbn. rewrite length_app, length_replicate. cbn in IH. by rewrite IH.
Qed.

Lemma side_odd (k : ConvKernel) : ∃ m, 1 ≤ m ∧ side k = 2 * m + 1.
Proof. destruct k; [exists 1|exists 3|exists 1|exists 1|exists 2]; (split; [lia|done]). Qed.

Lemma length_concat_value (k : ConvKernel) :
  length (concat (value k)) = side k * side k.
Proof. by destruct k. Qed.

Lemma conform_kernel_shape (k : ConvKernel) (t : ndarray) :
  ∃ f, _conform_kernel_to_tensor (value k) t = Ok f ∧
       height f = side k ∧ width f = side k.
Proof.
  unfold _conform_kernel_to_tensor, tf_reshape. fold (side k).
  rewrite decide_True.
  - eexists. by split.
  - by rewrite length_np_repeat, length_concat_value.
Qed.

Lemma wf_depthwise_conv2d (input filter out : ndarray) :
  tf_depthwise_conv2d input filter = Ok out → wf out.
Proof.
  unfold tf_depthwise_conv2d. case_decide; [|done]. intros [= <-].
  split; cbn.
  - by rewrite length_fmap, length_seq.
  - apply Forall_fmap, Forall_forall. intros i _. cbn.
    rewrite length_fmap, length_seq. split; [done|].
    apply Forall_fmap, Forall_forall. intros j _. cbn.
    by rewrite length_fmap, length_seq.
Qed.

Lemma length_crop_axis {A} (c : nat) (l : list A) :
  length (crop_axis c l) = length l - c - c.
Proof. unfold crop_axis. rewrite length_take, length_drop. lia. Qed.

Lemma wf_crop (a out : ndarray) (ch cw : Z) :
  wf a → crop a ch cw = Ok out → wf out.
Proof.
  intros [Hh Hr]. unfold crop. case_decide; [done|]. intros [= <-].
  split; cbn.
  - by rewrite length_crop_axis, length_fmap, Hh.
  - unfold crop_axis at 1. apply Forall_take, Forall_drop, Forall_fmap.
    eapply Forall_impl; [exact Hr|]. intros r [Hw Hp]. cbn.
    rewrite length_crop_axis, Hw. split; [done|].
    unfold crop_axis. by apply Forall_take, Forall_drop.
Qed.

Lemma has_shape_normalize (s : shape) (t : ndarray) :
  has_shape s t → has_shape s (normalize t).
Proof.
  intros [Hs Hwf]. rewrite normalize_tmap. split; [done|by apply wf_tmap].
Qed.

(** C2, as amended.  The padding is a quarter of each dimension, so the
    window of a kernel of side [l] fits, and the crop is not negative,
    only when [l - 1 <= 2 * (height / 4)] and [l - 1 <= 2 * (width / 4)].
    For every kernel and every tensor of such a size, of any channel
    count, [convolve] returns a tensor of the height, width and channel
    count of its input. *)
Theorem convolve_preserves_shape (k : ConvKernel) (t : ndarray) :
  side k - 1 ≤ 2 * (height t / 4) →
  side k - 1 ≤ 2 * (width t / 4) →
  ∃ out, convolve k t = Ok out ∧ has_shape (tf_shape t) out.
Proof.
  intros Hh Hw. unfold convolve, tf_shape at 1.
  pose proof (Nat.Div0.mul_div_le (height t) 4) as Hph.
  pose proof (Nat.Div0.mul_div_le (width t) 4) as Hpw.
  destruct (conform_kernel_shape k t) as (f & -> & Hfh & Hfw).
  destruct (side_odd k) as (m & Hm & Hside).
  cbn [mbind result_bind]. rewrite !trunc_quarter, !Nat2Z.id.
  set (ph := height t / 4) in *. set (pw := width t / 4) in *.
  destruct (tf_depthwise_conv2d (np_pad_wrap t ph pw) f) as [conv|e] eqn:Hconv.
  2: { exfalso. revert Hconv. unfold tf_depthwise_conv2d.
       rewrite decide_True; [done|]. cbn. lia. }
  pose proof (wf_depthwise_conv2d _ _ _ Hconv) as Hwfc.
  assert (tf_shape conv =
          (height t + 2 * ph - side k + 1, width t + 2 * pw - side k + 1, channels t)) as Hsc.
  { revert Hconv. unfold tf_depthwise_conv2d. case_decide; [|done].
    intros [= <-]. cbn. by rewrite Hfh, Hfw. }
  injection Hsc as Hch Hcw Hcc.
  cbn [mbind result_bind tf_shape].
  rewrite !trunc_half by lia.
  assert (Z.of_nat (height conv) - Z.of_nat (height t) = Z.of_nat (ph - m) * 2)%Z
    as -> by lia.
  assert (Z.of_nat (width conv) - Z.of_nat (width t) = Z.of_nat (pw - m) * 2)%Z
    as -> by lia.
  rewrite !Z.div_mul by done.
  destruct (crop conv (Z.of_nat (ph - m)) (Z.of_nat (pw - m))) as [cropped|e] eqn:Hcrop.
  2: { exfalso. revert Hcrop. unfold crop. rewrite decide_False; [done|lia]. }
  eexists. split; [done|]. apply has_shape_normalize. split.
  - revert Hcrop. unfold crop. case_decide; [done|]. intros [= <-].
    unfold tf_shape. cbn [height width channels]. rewrite Hcc, !Nat2Z.id.
    assert (height conv - (ph - m) - (ph - m) = height t) as -> by lia.
    by assert (width conv - (pw - m) - (pw - m) = width t) as -> by lia.
  - by eapply wf_crop.
Qed.

(** C2 as stated fails on small tensors: a 3x3x1 tensor gets no padding,
    the 3x3 window leaves one sample and the crop width is negative; a
    4x4x1 tensor padded to 6x6 is smaller than the 7x7 shadow kernel. *)
Lemma convolve_small_tensor_raises :
  convolve emboss (full (3, 3, 1) (Fin 0)) = Raise ValueError ∧
  convolve shadow (full (4, 4, 1) (Fin 0)) = Raise ValueError.
Proof. split; by vm_compute. Qed.

(** The scenario of the description: a 4x4x1 impulse at (0, 0) sharpened. *)
Example convolve_sharpen_impulse : convolve sharpen impulse = Ok sharpened_impulse.
Proof. apply (bool_decide_unpack _). by vm_compute. Qed.

Lemma convolve_preserves_shape_witness :
  side sharpen - 1 ≤ 2 * (height impulse / 4) ∧
  side sharpen - 1 ≤ 2 * (width impulse / 4) ∧
  ∃ out, convolve sharpen impulse = Ok out ∧ has_shape (4, 4, 1) out.
Proof.
  assert (side sharpen - 1 ≤ 2 * (height impulse / 4)) as Hh by (vm_compute; lia).
  assert (side sharpen - 1 ≤ 2 * (width impulse / 4)) as Hw by (vm_compute; lia).
  split; [exact Hh|]. split; [exact Hw|].
  exact (convolve_preserves_shape sharpen impulse Hh Hw).
Defined.

(** ** Indexing *)

Lemma bind_Ok {A B} (m : result A) (k : A → result B) (b : B) :
  m ≫= k = Ok b → ∃ a, m = Ok a ∧ k a = Ok b.
Proof. destruct m as [a|e]; [|done]. intros H. by exists a. Qed.

Lemma in_bounds_bind {A B} (P : A → Prop) (Q : B → Prop) (m : result A) (k : A → result B) :
  in_bounds P m → (∀ a, P a → in_bounds Q (k a)) → in_bounds Q (m ≫= k).
Proof. destruct m as [a|e]; cbn; auto. Qed.

Lemma in_bounds_impl {A} (P Q : A → Prop) (r : result A) :
  in_bounds P r → (∀ a, P a → Q a) → in_bounds Q r.
Proof. destruct r; cbn; auto. Qed.

Lemma in_bounds_for_each {S A} (I : S → Prop) (l : list A) (s : S) (body : S → A → result S) :
  I s → (∀ s i, i ∈ l → I s → in_bounds I (body s i)) →
  in_bounds I (for_each l s body).
Proof.
  revert s. induction l as [|i l IH]; intros s Hs Hbody; [done|].
  cbn [for_each]. eapply in_bounds_bind.
  - apply Hbody; [by left|done].
  - intros s' Hs'. apply IH; [done|]. intros s'' j Hj. apply Hbody. by right.
Qed.

Lemma py_mod_pos (a : Z) (n : nat) :
  0 < n → py_mod a (Z.of_nat n) = Ok (a mod Z.of_nat n)%Z.
Proof. intros Hn. unfold py_mod. rewrite decide_False; [done|lia]. Qed.

Lemma py_mod_range (a b i : Z) : py_mod a b = Ok i → (0 < b)%Z → (0 ≤ i < b)%Z.
Proof.
  unfold py_mod. case_decide; [done|]. intros [= <-] Hb. by apply Z.mod_pos_bound.
Qed.

Lemma np_getitem_lookup {A} (l : list A) (i : nat) (v : A) :
  l !! i = Some v → np_getitem l (Z.of_nat i) = Ok v.
Proof.
  intros Hv. pose proof (lookup_lt_Some _ _ _ Hv) as Hlt. unfold np_getitem. cbv zeta.
  destruct (decide (Z.of_nat i < 0)%Z) as [?|_]; [lia|].
  rewrite decide_True by lia. by rewrite Nat2Z.id, Hv.
Qed.

Lemma np_getitem_range {A} (l : list A) (i : Z) :
  (0 ≤ i < Z.of_nat (length l))%Z →
  ∃ v, np_getitem l i = Ok v ∧ l !! Z.to_nat i = Some v.
Proof.
  intros Hi. destruct (lookup_lt_is_Some_2 l (Z.to_nat i)) as [v Hv]; [lia|].
  exists v. split; [|done]. rewrite <- (Z2Nat.id i) by lia. by apply np_getitem_lookup.
Qed.

Lemma wf_lookup_row (t : ndarray) (y : nat) (r : list (list float)) :
  wf t → rows t !! y = Some r →
  length r = width t ∧ Forall (λ p, length p = channels t) r.
Proof.
  intros [_ Hr] Hy. rewrite Forall_lookup in Hr. by apply (Hr y).
Qed.

Lemma wf_lookup_pixel (t : ndarray) (y x : nat) (p : list float) :
  wf t → pixel_at t y x = Some p → length p = channels t.
Proof.
  unfold pixel_at. intros Hwf H.
  destruct (rows t !! y) as [r|] eqn:Hy; [|done]. cbn in H.
  destruct (wf_lookup_row t y r Hwf Hy) as [_ Hp].
  rewrite Forall_lookup in Hp. by apply (Hp x).
Qed.

Lemma np_setitem_nat (temp : ndarray) (y x : nat) (p : list float) :
  wf temp → y < height temp → x < width temp → length p = channels temp →
  np_setitem temp (Z.of_nat y) (Z.of_nat x) p =
  Ok (NDArray (height temp) (width temp) (channels temp)
        (alter (λ r, <[x := p]> r) y (rows temp))).
Proof.
  intros Hwf Hy Hx Hp. unfold np_setitem. cbv zeta.
  destruct (lookup_lt_is_Some_2 (rows temp) y) as [r Hr]; [destruct Hwf; lia|].
  destruct (wf_lookup_row temp y r Hwf Hr) as [Hlen _].
  destruct (lookup_lt_is_Some_2 r x) as [q Hq]; [lia|].
  rewrite (np_getitem_lookup _ _ _ Hr). cbn [mbind result_bind].
  rewrite (np_getitem_lookup _ _ _ Hq). cbn [mbind result_bind].
  rewrite decide_True by done. cbn [mbind result_bind].
  destruct Hwf as [Hh _].
  rewrite !Z.mod_small by lia. by rewrite !Nat2Z.id.
Qed.

Lemma wf_alter_insert (h w c : nat) (rs : list (list (list float))) (y x : nat) (p : list float) :
  wf_rows h w c rs → length p = c →
  wf_rows h w c (alter (λ r, <[x := p]> r) y rs).
Proof.
  intros [Hh Hr] Hp. split; [by rewrite length_alter|].
  apply Forall_alter; [done|]. intros r _ [Hw Hps].
  rewrite length_insert. split; [done|]. by apply Forall_insert.
Qed.

(** ** displace: every access is within bounds *)

Lemma in_bounds_py_mod (a : Z) (n : nat) :
  0 < n → in_bounds (λ i, 0 ≤ i < Z.of_nat n)%Z (py_mod a (Z.of_nat n)).
Proof.
  intros Hn. rewrite py_mod_pos by done. cbn. apply Z.mod_pos_bound. lia.
Qed.

Lemma in_bounds_getitem {A} (l : list A) (i : Z) :
  (0 ≤ i < Z.of_nat (length l))%Z →
  in_bounds (λ v, l !! Z.to_nat i = Some v) (np_getitem l i).
Proof. intros Hi. by destruct (np_getitem_range l i Hi) as (v & -> & Hv). Qed.

Lemma in_bounds_np_int (p : list float) : in_bounds (λ _, True) (np_int p).
Proof. destruct p as [|[q| | |] [|? ?]]; by cbn. Qed.

Lemma in_bounds_setitem (temp : ndarray) (y x : nat) (p : list float) :
  wf temp → y < height temp → x < width temp → length p = channels temp →
  in_bounds (λ temp', wf temp' ∧ tf_shape temp' = tf_shape temp)
    (np_setitem temp (Z.of_nat y) (Z.of_nat x) p).
Proof.
  intros Hwf Hy Hx Hp. rewrite np_setitem_nat by done. cbn.
  split; [|done]. by apply wf_alter_insert.
Qed.

Lemma wf_rgb_to_grayscale (t g : ndarray) :
  wf t → tf_rgb_to_grayscale t = Ok g →
  wf g ∧ height g = height t ∧ width g = width t.
Proof.
  intros [Hh Hr]. unfold tf_rgb_to_grayscale. case_decide; [|done].
  intros [= <-]. split_and!; try done. split; cbn.
  - by rewrite length_fmap.
  - apply Forall_fmap. eapply Forall_impl; [exact Hr|]. intros r [Hw _]. cbn.
    rewrite length_fmap. split; [done|].
    apply Forall_fmap, Forall_forall. by intros p _.
Qed.

Lemma displace_pixel_in_bounds (t ref temp : ndarray) (bx by_ : Z) (x y : nat) :
  wf t → wf ref → height ref = height t → width ref = width t →
  wf temp → tf_shape temp = tf_shape t →
  x < width t → y < height t →
  in_bounds (λ temp', wf temp' ∧ tf_shape temp' = tf_shape t)
    (displace_pixel t ref bx by_ temp x y).
Proof.
  intros Hwf Hwfr Hrh Hrw Hwft Hst Hx Hy. unfold displace_pixel.
  pose proof Hwf as [Hth _]. pose proof Hwfr as [Hrl _].
  injection Hst as Hsh Hsw Hsc.
  eapply in_bounds_bind; [apply in_bounds_py_mod; lia|]. intros i Hi. cbn beta in *.
  eapply in_bounds_bind; [apply in_bounds_getitem; lia|]. intros r Hr. cbn beta in *.
  destruct (wf_lookup_row ref _ r Hwfr Hr) as [Hlr _].
  eapply in_bounds_bind; [apply in_bounds_getitem; lia|]. intros p _. cbn beta in *.
  eapply in_bounds_bind; [apply in_bounds_np_int|]. intros d _. cbn beta in *.
  eapply in_bounds_bind; [apply in_bounds_py_mod; lia|]. intros x_offset Hxo. cbn beta in *.
  eapply in_bounds_bind; [apply in_bounds_getitem; lia|]. intros r' Hr'. cbn beta in *.
  destruct (wf_lookup_row ref _ r' Hwfr Hr') as [Hlr' _].
  eapply in_bounds_bind; [apply in_bounds_py_mod; lia|]. intros j Hj. cbn beta in *.
  eapply in_bounds_bind; [apply in_bounds_getitem; lia|]. intros p' _. cbn beta in *.
  eapply in_bounds_bind; [apply in_bounds_np_int|]. intros d' _. cbn beta in *.
  eapply in_bounds_bind; [apply in_bounds_py_mod; lia|]. intros y_offset Hyo. cbn beta in *.
  eapply in_bounds_bind; [apply in_bounds_getitem; lia|]. intros row Hrow. cbn beta in *.
  destruct (wf_lookup_row t _ row Hwf Hrow) as [Hlrow Hprow].
  eapply in_bounds_bind; [apply in_bounds_getitem; lia|]. intros px Hpx. cbn beta in *.
  rewrite Forall_lookup in Hprow. specialize (Hprow _ _ Hpx).
  eapply in_bounds_impl; [apply in_bounds_setitem; try done; lia|].
  cbn beta. intros temp' [? ->]. split; [done|]. unfold tf_shape. congruence.
Qed.

Lemma displace_pixel_Ok (t ref temp temp' : ndarray) (bx by_ : Z) (x y : nat) :
  x < width t → y < height t →
  displace_pixel t ref bx by_ temp x y = Ok temp' →
  ∃ x_offset y_offset : Z,
    (0 ≤ (Z.of_nat y + by_) mod Z.of_nat (height t) < Z.of_nat (height t))%Z ∧
    (0 ≤ (Z.of_nat x + bx) mod Z.of_nat (width t) < Z.of_nat (width t))%Z ∧
    (0 ≤ x_offset < Z.of_nat (width t))%Z ∧
    (0 ≤ y_offset < Z.of_nat (height t))%Z ∧
    ∃ row p,
      np_getitem (rows t) y_offset = Ok row ∧ np_getitem row x_offset = Ok p ∧
      np_setitem temp (Z.of_nat y) (Z.of_nat x) p = Ok temp'.
Proof.
  intros Hx Hy. unfold displace_pixel. intros H.
  apply bind_Ok in H as (i & Hi & H). apply bind_Ok in H as (r & _ & H).
  apply bind_Ok in H as (p & _ & H). apply bind_Ok in H as (d & _ & H).
  apply bind_Ok in H as (x_offset & Hxo & H). apply bind_Ok in H as (r' & _ & H).
  apply bind_Ok in H as (j & Hj & H). apply bind_Ok in H as (p' & _ & H).
  apply bind_Ok in H as (d' & _ & H). apply bind_Ok in H as (y_offset & Hyo & H).
  apply bind_Ok in H as (row & Hrow & H). apply bind_Ok in H as (px & Hpx & H).
  exists x_offset, y_offset.
  apply py_mod_range in Hxo; [|lia]. apply py_mod_range in Hyo; [|lia].
  split_and!; try lia; try (apply Z.mod_pos_bound; lia).
  by exists row, px.
Qed.

Lemma displace_in_bounds_aux (t : ndarray) (displacement : float) (rx ry : Qc) :
  wf t → in_bounds (λ _, True) (displace t displacement rx ry).
Proof.
  intros Hwf. unfold displace. cbv zeta.
  unfold tf_shape at 1. cbv beta iota.
  eapply (in_bounds_bind (λ g, wf g ∧ height g = height t ∧ width g = width t)).
  { case_decide; [|done].
    destruct (tf_rgb_to_grayscale t) as [g|e] eqn:Hg.
    - by apply wf_rgb_to_grayscale.
    - revert Hg. unfold tf_rgb_to_grayscale. case_decide; [done|]. by intros [= <-]. }
  intros g (Hwfg & Hgh & Hgw).
  eapply in_bounds_bind; [|done].
  apply (in_bounds_for_each (λ temp, wf temp ∧ tf_shape temp = tf_shape t)).
  { split; [apply wf_full|]. apply has_shape_full. }
  intros temp x Hx%elem_of_seq [Hwft Hst].
  apply in_bounds_for_each; [done|].
  intros temp' y Hy%elem_of_seq [Hwft' Hst'].
  apply displace_pixel_in_bounds; try done; try lia.
  unfold tf_multiply_scalar, tf_subtract_scalar. by do 2 apply wf_tmap.
Qed.

(** C8.  For every tensor, every displacement and every pair of random
    draws, [displace] raises neither an index error nor a modulo by zero:
    no read or write falls outside an array.  For every pixel (x, y) the
    rows and columns used to index the reference field and the source
    offsets of the gather lie in [0, height) and [0, width), and the
    gathered pixel is read from the tensor at these offsets. *)
Theorem displace_reads_in_bounds (t : ndarray) (displacement : float) (rx ry : Qc) :
  wf t →
  displace t displacement rx ry ≠ Raise IndexError ∧
  displace t displacement rx ry ≠ Raise ZeroDivisionError ∧
  ∀ (reference temp temp' : ndarray) (bx by_ : Z) (x y : nat),
    x < width t → y < height t →
    displace_pixel t reference bx by_ temp x y = Ok temp' →
    ∃ x_offset y_offset : Z,
      (0 ≤ (Z.of_nat y + by_) mod Z.of_nat (height t) < Z.of_nat (height t))%Z ∧
      (0 ≤ (Z.of_nat x + bx) mod Z.of_nat (width t) < Z.of_nat (width t))%Z ∧
      (0 ≤ x_offset < Z.of_nat (width t))%Z ∧
      (0 ≤ y_offset < Z.of_nat (height t))%Z ∧
      ∃ row p,
        np_getitem (rows t) y_offset = Ok row ∧ np_getitem row x_offset = Ok p ∧
        np_setitem temp (Z.of_nat y) (Z.of_nat x) p = Ok temp'.
Proof.
  intros Hwf. pose proof (displace_in_bounds_aux t displacement rx ry Hwf) as H.
  split_and!.
  - intros He. rewrite He in H. by destruct H.
  - intros He. rewrite He in H. by destruct H.
  - intros. by eapply displace_pixel_Ok.
Qed.

(** With full displacement the two pixels of [two_pixels] are gathered
    from themselves: the offsets are -2 and 2 columns, that is, none. *)
Example displace_two_pixels : displace two_pixels (Fin 1) half 0%Qc = Ok two_pixels.
Proof. apply (bool_decide_unpack _). by vm_compute. Qed.

(** Two channels are neither luminance nor a scalar field, and four are
    not RGB. *)
Example displace_two_channels :
  displace (full (2, 2, 2) (Fin 0)) (Fin 1) half 0%Qc = Raise TypeError.
Proof. by vm_compute. Qed.

Example displace_four_channels :
  displace (full (2, 2, 4) (Fin 0)) (Fin 1) half 0%Qc = Raise ValueError.
Proof. by vm_compute. Qed.

Lemma displace_reads_in_bounds_witness :
  wf two_pixels ∧
  displace two_pixels (Fin 1) half 0%Qc ≠ Raise IndexError ∧
  displace two_pixels (Fin 1) half 0%Qc ≠ Raise ZeroDivisionError.
Proof.
  split; [exact two_pixels_wf|].
  destruct (displace_reads_in_bounds two_pixels (Fin 1) half 0%Qc two_pixels_wf)
    as (H1 & H2 & _).
  split; [exact H1|exact H2].
Defined.

(** ** displace with no displacement *)

Lemma tmap_const_full (f : float → float) (c : float) (t : ndarray) :
  wf t → all_samples (λ v, f v = c) t → tmap f t = full (tf_shape t) c.
Proof.
  intros [Hh Hr] Hall. unfold tmap, full, tf_shape. f_equal.
  rewrite <- Hh. clear Hh. unfold all_samples in Hall.
  induction Hr as [|r rs [Hw Hp] _ IH]; [done|].
  apply Forall_cons in Hall as [Hall1 Hall2]. cbn. f_equal; [|by apply IH].
  rewrite <- Hw. clear Hw IH.
  induction Hp as [|p ps Hc _ IH]; [done|].
  apply Forall_cons in Hall1 as [Hp1 Hp2]. cbn. f_equal; [|by apply IH].
  rewrite <- Hc. clear Hc IH.
  induction Hp1 as [|v vs Hv _ IH]; [done|]. cbn. by rewrite Hv, IH.
Qed.

Lemma foldl_fadd_finite (l : list float) (acc : float) :
  is_finite acc → Forall is_finite l → is_finite (foldl fadd acc l).
Proof.
  intros Hacc Hl. revert acc Hacc.
  induction Hl as [|v l Hv _ IH]; intros acc Hacc; [done|].
  cbn. apply IH. by destruct acc, v.
Qed.

Lemma zip_with_fmul_finite (p ws : list float) :
  Forall is_finite p → Forall is_finite ws → Forall is_finite (zip_with fmul p ws).
Proof.
  intros Hp. revert ws. induction Hp as [|v p Hv _ IH]; intros ws Hws; [done|].
  destruct Hws as [|w ws Hw Hws]; [done|]. cbn. constructor; [|by apply IH].
  by destruct v, w.
Qed.

Lemma zero_sample (q : Qc) :
  fmul (fsub (Fin q) (Fin half)) (fmul (Fin 2) (Fin 0)) = Fin 0.
Proof. cbn -[Qcplus Qcmult Qcopp]. f_equal. ring. Qed.

Lemma zero_reference (t : ndarray) :
  wf t → finite_tensor t → channels t = 1 ∨ channels t = 3 →
  ∃ g, (if decide (2 < channels t) then tf_rgb_to_grayscale t else Ok t) = Ok g ∧
       tf_multiply_scalar (tf_subtract_scalar g (Fin half)) (fmul (Fin 2) (Fin 0))
       = full (height t, width t, 1) (Fin 0).
Proof.
  intros Hwf Hfin Hc.
  assert (∀ g, wf g → finite_tensor g → tf_shape g = (height t, width t, 1) →
    tf_multiply_scalar (tf_subtract_scalar g (Fin half)) (fmul (Fin 2) (Fin 0))
    = full (height t, width t, 1) (Fin 0)) as Hzero.
  { intros g Hwfg Hfing <-. unfold tf_multiply_scalar, tf_subtract_scalar.
    rewrite tmap_tmap. apply tmap_const_full; [done|].
    eapply all_samples_impl; [exact Hfing|].
    intros [q| | |]; try done. intros _. apply zero_sample. }
  destruct Hc as [Hc|Hc].
  - exists t. rewrite decide_False by lia. split; [done|].
    apply Hzero; try done. unfold tf_shape. by rewrite Hc.
  - rewrite decide_True by lia. unfold tf_rgb_to_grayscale. rewrite decide_True by done.
    eexists. split; [done|].
    destruct (wf_rgb_to_grayscale t _ Hwf
                ltac:(unfold tf_rgb_to_grayscale; by rewrite decide_True))
      as (Hwfg & _ & _).
    apply Hzero; try done.
    unfold finite_tensor, all_samples in *. cbn.
    apply Forall_fmap. eapply Forall_impl; [exact Hfin|]. intros r Hr. cbn.
    apply Forall_fmap. eapply Forall_impl; [exact Hr|]. intros p Hp. cbn.
    constructor; [|done]. apply foldl_fadd_finite; [done|].
    apply zip_with_fmul_finite; [done|]. by repeat constructor.
Qed.

Lemma np_getitem_replicate {A} (n : nat) (v : A) (i : Z) :
  (0 ≤ i < Z.of_nat n)%Z → np_getitem (replicate n v) i = Ok v.
Proof.
  intros Hi. rewrite <- (Z2Nat.id i) by lia.
  apply np_getitem_lookup, lookup_replicate_2. lia.
Qed.

Lemma trunc_zero_mul (q : Qc) : trunc (0 * q)%Qc = 0%Z.
Proof. by rewrite Qcmult_0_l. Qed.

Lemma pixel_at_Some (t : ndarray) (y x : nat) (p : list float) :
  pixel_at t y x = Some p ↔ ∃ r, rows t !! y = Some r ∧ r !! x = Some p.
Proof.
  unfold pixel_at. destruct (rows t !! y) as [r|]; cbn.
  - split; [by exists r|]. by intros (r' & [= <-] & ?).
  - split; [done|]. by intros (r' & [=] & ?).
Qed.

Lemma pixel_at_in_range (t : ndarray) (y x : nat) :
  wf t → y < height t → x < width t → is_Some (pixel_at t y x).
Proof.
  intros Hwf Hy Hx.
  destruct (lookup_lt_is_Some_2 (rows t) y) as [r Hr]; [destruct Hwf; lia|].
  destruct (wf_lookup_row t y r Hwf Hr) as [Hlen _].
  destruct (lookup_lt_is_Some_2 r x) as [p Hp]; [lia|].
  exists p. apply pixel_at_Some. eauto.
Qed.

Ltac in_range := first [lia | apply Z.mod_pos_bound; lia].

(** With a reference field of zeros both offsets of pixel (x, y) are zero:
    the pixel is copied from the same place. *)
Lemma displace_pixel_zero (t temp : ndarray) (bx by_ : Z) (x y : nat) (p : list float) :
  x < width t → y < height t → pixel_at t y x = Some p →
  displace_pixel t (full (height t, width t, 1) (Fin 0)) bx by_ temp x y
  = np_setitem temp (Z.of_nat y) (Z.of_nat x) p.
Proof.
  intros Hx Hy (r & Hr & Hp)%pixel_at_Some. unfold displace_pixel, full.
  cbn [rows].
  rewrite !py_mod_pos by lia. cbn [mbind result_bind].
  rewrite np_getitem_replicate by in_range. cbn [mbind result_bind].
  rewrite np_getitem_replicate by in_range. cbn [mbind result_bind].
  cbn [replicate fmap list_fmap np_int py_int fmul].
  rewrite trunc_zero_mul. cbn [mbind result_bind].
  rewrite Z.add_0_r, py_mod_pos by lia. cbn [mbind result_bind].
  rewrite np_getitem_replicate by in_range. cbn [mbind result_bind].
  rewrite np_getitem_replicate by in_range. cbn [mbind result_bind].
  cbn [replicate fmap list_fmap np_int py_int fmul].
  rewrite trunc_zero_mul. cbn [mbind result_bind].
  rewrite Z.add_0_r, py_mod_pos by lia. cbn [mbind result_bind].
  rewrite !Z.mod_small by lia.
  rewrite (np_getitem_lookup _ _ _ Hr). cbn [mbind result_bind].
  by rewrite (np_getitem_lookup _ _ _ Hp).
Qed.

Lemma pixel_at_alter_eq (h w c : nat) (rs : list (list (list float))) (y x : nat) (p : list float) :
  wf (NDArray h w c rs) → y < h → x < w →
  pixel_at (NDArray h w c (alter (λ r, <[x := p]> r) y rs)) y x = Some p.
Proof.
  intros Hwf Hy Hx.
  destruct (lookup_lt_is_Some_2 rs y) as [r Hr]; [destruct Hwf; cbn in *; lia|].
  destruct (wf_lookup_row _ y r Hwf Hr) as [Hlen _]. cbn in Hlen.
  apply pixel_at_Some. exists (<[x := p]> r). cbn. split.
  - by rewrite list_lookup_alter_eq, Hr.
  - apply list_lookup_insert_eq. lia.
Qed.

Lemma pixel_at_alter_ne (h w c : nat) (rs : list (list (list float))) (y x y' x' : nat) (p : list float) :
  (y', x') ≠ (y, x) →
  pixel_at (NDArray h w c (alter (λ r, <[x := p]> r) y rs)) y' x'
  = pixel_at (NDArray h w c rs) y' x'.
Proof.
  intros Hne. unfold pixel_at. cbn.
  destruct (decide (y' = y)) as [->|Hy].
  - rewrite list_lookup_alter_eq. destruct (rs !! y) as [r|]; [|done]. cbn.
    apply list_lookup_insert_ne. congruence.
  - by rewrite list_lookup_alter_ne.
Qed.

Lemma ndarray_ext (s : shape) (a b : ndarray) :
  has_shape s a → has_shape s b →
  (∀ y x, y < s.1.1 → x < s.1.2 → pixel_at a y x = pixel_at b y x) →
  a = b.
Proof.
  destruct s as [[h w] c], a as [ha wa ca ra], b as [hb wb cb rb].
  intros [[= -> -> ->] Hwfa] [[= -> -> ->] Hwfb] Hpx. f_equal. cbn in Hpx.
  pose proof Hwfa as [Hla _]. pose proof Hwfb as [Hlb _]. cbn in Hla, Hlb.
  apply (list_eq_same_length _ _ h); [done..|].
  intros y r1 r2 Hy Hr1 Hr2.
  destruct (wf_lookup_row _ y r1 Hwfa Hr1) as [Hl1 _].
  destruct (wf_lookup_row _ y r2 Hwfb Hr2) as [Hl2 _]. cbn in Hl1, Hl2.
  apply (list_eq_same_length _ _ w); [done..|].
  intros x p1 p2 Hx Hp1 Hp2.
  specialize (Hpx y x Hy Hx). unfold pixel_at in Hpx. cbn in Hpx.
  rewrite Hr1, Hr2 in Hpx. cbn in Hpx. congruence.
Qed.

Lemma for_each_seq_inv {S} (I : nat → S → Prop) (body : S → nat → result S) (n : nat) (s : S) :
  I 0 s →
  (∀ i s, i < n → I i s → ∃ s', body s i = Ok s' ∧ I (Datatypes.S i) s') →
  ∃ s', for_each (seq 0 n) s body = Ok s' ∧ I n s'.
Proof.
  assert (∀ a s, I a s →
    (∀ i s, a ≤ i < a + n → I i s → ∃ s', body s i = Ok s' ∧ I (Datatypes.S i) s') →
    ∃ s', for_each (seq a n) s body = Ok s' ∧ I (a + n) s') as Hgen.
  { induction n as [|n IH]; intros a s0 Hs Hbody.
    - exists s0. by rewrite Nat.add_0_r.
    - destruct (Hbody a s0) as (s1 & Hs1 & HI1); [lia|done|].
      destruct (IH (Datatypes.S a) s1) as (s2 & Hs2 & HI2); [done| |].
      { intros i s' Hi. apply Hbody. lia. }
      exists s2. cbn [seq for_each]. rewrite Hs1. cbn [mbind result_bind].
      split; [done|]. by replace (a + Datatypes.S n) with (Datatypes.S a + n) by lia. }
  intros Hs Hbody. apply (Hgen 0 s Hs). intros i s' Hi. apply Hbody. lia.
Qed.

(** One column of the loop: the pixels of column [x] are copied row by
    row, and the columns before [x] are left as they were. *)
Lemma displace_zero_column (t temp : ndarray) (bx by_ : Z) (x : nat) :
  wf t → x < width t → has_shape (tf_shape t) temp →
  (∀ y' x', x' < x → y' < height t → pixel_at temp y' x' = pixel_at t y' x') →
  ∃ temp',
    for_each (seq 0 (height t)) temp (λ temp y,
      displace_pixel t (full (height t, width t, 1) (Fin 0)) bx by_ temp x y) = Ok temp' ∧
    has_shape (tf_shape t) temp' ∧
    (∀ y' x', x' < S x → y' < height t → pixel_at temp' y' x' = pixel_at t y' x').
Proof.
  intros Hwf Hx Hshape Hagree.
  destruct (for_each_seq_inv
    (λ y temp, has_shape (tf_shape t) temp ∧
       ∀ y' x', y' < height t → x' < x ∨ (x' = x ∧ y' < y) →
                pixel_at temp y' x' = pixel_at t y' x')
    (λ temp y, displace_pixel t (full (height t, width t, 1) (Fin 0)) bx by_ temp x y)
    (height t) temp) as (temp' & Hloop & Hs' & Hag').
  - split; [done|]. intros y' x' Hy' [Hlt|[_ Hlt]]; [by apply Hagree|lia].
  - intros y s Hy [[Hss Hwfs] Hag].
    destruct (pixel_at_in_range t y x Hwf Hy Hx) as [p Hp].
    pose proof (wf_lookup_pixel t y x p Hwf Hp) as Hlen.
    destruct s as [hs ws cs rs]. injection Hss as -> -> ->.
    rewrite (displace_pixel_zero _ _ _ _ _ _ p) by done.
    rewrite np_setitem_nat by done. cbn [height width channels rows].
    eexists. split; [done|]. split; [split; [done|by apply wf_alter_insert]|].
    intros y' x' Hy' Hc.
    destruct (decide ((y', x') = (y, x))) as [[= -> ->]|Hne].
    + rewrite Hp. by apply pixel_at_alter_eq.
    + rewrite pixel_at_alter_ne by done. apply Hag; [done|].
      destruct Hc as [?|[-> ?]]; [by left|right]. split; [done|].
      destruct (decide (y' = y)) as [->|?]; [done|lia].
  - exists temp'. split; [done|]. split; [done|].
    intros y' x' Hx' Hy'. apply Hag'; [done|]. lia.
Qed.

(** The whole loop: every column is copied in turn. *)
Lemma displace_zero_gather (t : ndarray) (rx ry : Qc) :
  wf t → finite_tensor t → channels t = 1 ∨ channels t = 3 →
  displace t (Fin 0) rx ry = Ok t.
Proof.
  intros Hwf Hfin Hc. unfold displace. cbv zeta.
  unfold tf_shape at 1. cbv beta iota.
  destruct (zero_reference t Hwf Hfin Hc) as (g & -> & Href).
  cbn [mbind result_bind]. rewrite Href.
  destruct (for_each_seq_inv
    (λ x temp, has_shape (tf_shape t) temp ∧
       ∀ y' x', x' < x → y' < height t → pixel_at temp y' x' = pixel_at t y' x')
    (λ temp x, for_each (seq 0 (height t)) temp (λ temp y,
       displace_pixel t (full (height t, width t, 1) (Fin 0))
         (trunc (rx * Qc_of_nat (width t))%Qc)
         (trunc (ry * Qc_of_nat (height t))%Qc) temp x y))
    (width t) (np_zeros (tf_shape t))) as (temp' & -> & Hs' & Hag').
  - split; [apply has_shape_full|]. intros; lia.
  - intros x s Hx [Hs Hag]. by apply displace_zero_column.
  - cbn [mbind result_bind]. unfold mret, result_ret, convert_image_dtype. f_equal.
    apply (ndarray_ext (tf_shape t)); [done|by split|].
    intros y x Hy Hx. by apply Hag'.
Qed.

(** C1, as amended.  With [displacement = 0.0] the reference field is
    rescaled to zero, both offsets of every pixel vanish, and the gather
    is the identity: for every tensor of finite samples with one or three
    channels, and whatever the two random draws are, [displace] returns
    the input tensor itself.  The base offsets only select where the
    (zero) reference field is read; they do not shift the output. *)
Theorem displace_zero_is_identity (t : ndarray) (rx ry : Qc) :
  wf t → finite_tensor t → channels t = 1 ∨ channels t = 3 →
  displace t (Fin 0) rx ry = Ok t.
Proof. apply displace_zero_gather. Qed.

(** C1 as stated fails: on a one-row tensor with pixels 0 and 1, with
    draws that give base offsets (1, 0), [displace] with no displacement
    returns the input, which is not the input shifted by one column. *)
Lemma displace_zero_is_not_a_shift :
  trunc (half * Qc_of_nat (width two_pixels))%Qc = 1%Z ∧
  trunc (0 * Qc_of_nat (height two_pixels))%Qc = 0%Z ∧
  displace two_pixels (Fin 0) half 0%Qc = Ok two_pixels ∧
  displace two_pixels (Fin 0) half 0%Qc ≠ Ok (cyclic_shift two_pixels 0 1).
Proof.
  assert (displace two_pixels (Fin 0) half 0%Qc = Ok two_pixels) as H.
  { apply displace_zero_gather; [exact two_pixels_wf|repeat constructor|by left]. }
  split; [by vm_compute|]. split; [by vm_compute|]. split; [exact H|].
  rewrite H. by intros [=].
Qed.

Lemma displace_zero_is_identity_witness :
  wf two_pixels ∧ finite_tensor two_pixels ∧
  (channels two_pixels = 1 ∨ channels two_pixels = 3) ∧
  displace two_pixels (Fin 0) half 0%Qc = Ok two_pixels.
Proof.
  assert (channels two_pixels = 1 ∨ channels two_pixels = 3) as Hc by (left; reflexivity).
  split; [exact two_pixels_wf|]. split; [exact two_pixels_finite|]. split; [exact Hc|].
  exact (displace_zero_is_identity two_pixels half 0%Qc two_pixels_wf two_pixels_finite Hc).
Defined.

(** ** resample *)

Lemma fmap_seq_const {A} (f : nat → A) (v : A) (n : nat) :
  (∀ i, i < n → f i = v) → f <$> seq 0 n = replicate n v.
Proof.
  intros Hf. apply (list_eq_same_length _ _ n).
  - by rewrite length_replicate.
  - by rewrite length_fmap, length_seq.
  - intros i x y Hi Hx Hy. rewrite list_lookup_fmap, lookup_seq_lt in Hx by done.
    rewrite lookup_replicate_2 in Hy by done. cbn in Hx. rewrite Hf in Hx by done.
    congruence.
Qed.

Lemma sample_at_full (h w c : nat) (v : float) (i j k : nat) :
  i < h → j < w → k < c → sample_at (full (h, w, c) v) i j k = v.
Proof.
  intros Hi Hj Hk. unfold sample_at, full. cbn.
  by rewrite !lookup_total_replicate_2.
Qed.

(** Nearest-neighbour sampling honours the contract. *)
Lemma resize_nearest_contract : resize_contract resize_nearest.
Proof.
  split.
  - intros image [[h w] c] order out _. unfold resize_nearest.
    repeat case_decide; try done. intros [= <-]. split; [done|]. split; cbn.
    + by rewrite length_fmap, length_seq.
    + apply Forall_fmap, Forall_forall. intros i _. cbn.
      rewrite length_fmap, length_seq. split; [done|].
      apply Forall_fmap, Forall_forall. intros j _. cbn.
      by rewrite length_fmap, length_seq.
  - intros image h w order _ Hh Hw Hth Htw _. unfold resize_nearest.
    rewrite decide_False by lia. rewrite decide_False by lia. by eexists.
  - intros [[h0 w0] c] q h w order out Hh0 Hw0 Hh Hw. cbn in Hh0, Hw0. cbn [snd].
    unfold resize_nearest. rewrite decide_False by lia.
    rewrite decide_False by (cbn; lia). intros [= <-].
    change (full (h, w, c) (Fin q))
      with (NDArray h w c (replicate h (replicate w (replicate c (Fin q))))).
    f_equal.
    apply fmap_seq_const. intros i Hi. apply fmap_seq_const. intros j Hj.
    apply fmap_seq_const. intros k Hk. cbn [height width channels full].
    apply sample_at_full.
    + apply Nat.Div0.div_lt_upper_bound. nia.
    + apply Nat.Div0.div_lt_upper_bound. nia.
    + apply Nat.Div0.div_lt_upper_bound. nia.
Qed.

Section resample_properties.

Variable resize : ndarray → shape → Z → result ndarray.
Hypothesis contract : resize_contract resize.

Lemma resample_Ok (t out : ndarray) (w h : nat) (order : Z) :
  wf t → resample resize t w h order = Ok out → has_shape (h, w, channels t) out.
Proof.
  intros Hwf. unfold resample. cbn [tf_shape].
  intros (r & Hr & [= <-])%bind_Ok. by eapply (resize_shape _ contract).
Qed.

Lemma resample_defined (t : ndarray) (w h : nat) (order : Z) :
  wf t → 0 < height t → 0 < width t → 0 < w → 0 < h → order ∈ [0; 1; 3]%Z →
  ∃ out, resample resize t w h order = Ok out.
Proof.
  intros Hwf Hth Htw Hw Hh Ho. unfold resample. cbn [tf_shape].
  destruct (resize_defined _ contract t h w order) as [out ->]; try done.
  by eexists.
Qed.

Lemma resample_constant (s : shape) (q : Qc) (w h : nat) (order : Z) :
  0 < s.1.1 → 0 < s.1.2 → 0 < w → 0 < h → order ∈ [0; 1; 3]%Z →
  resample resize (full s (Fin q)) w h order = Ok (full (h, w, s.2) (Fin q)).
Proof.
  intros Hsh Hsw Hw Hh Ho. destruct s as [[h0 w0] c]. cbn in Hsh, Hsw. cbn [snd].
  destruct (resample_defined (full (h0, w0, c) (Fin q)) w h order) as [out Hout];
    try done; [apply wf_full|].
  rewrite Hout. revert Hout. unfold resample. cbn [tf_shape full height width channels].
  intros (r & Hr & [= <-])%bind_Ok. f_equal.
  by apply (resize_constant _ contract (h0, w0, c) q h w order).
Qed.

End resample_properties.

(** C7.  Under the contract of the library resize, for every non-empty
    image tensor with [c] channels, every positive target width and
    height and every spline order among 0, 1 and 3, [resample] returns a
    tensor of shape (height, width, c). *)
Theorem resample_shape (resize : ndarray → shape → Z → result ndarray)
    (t : ndarray) (w h : nat) (order : Z) :
  resize_contract resize →
  wf t → 0 < height t → 0 < width t → 0 < w → 0 < h → order ∈ [0; 1; 3]%Z →
  ∃ out, resample resize t w h order = Ok out ∧ has_shape (h, w, channels t) out.
Proof.
  intros Hc Hwf Hth Htw Hw Hh Ho.
  destruct (resample_defined resize Hc t w h order) as [out Hout]; try done.
  exists out. split; [done|]. by eapply resample_Ok.
Qed.

Lemma impulse_wf : wf impulse.
Proof. repeat constructor. Qed.

Lemma resample_shape_witness :
  resize_contract resize_nearest ∧ wf impulse ∧
  ∃ out, resample resize_nearest impulse 8 2 3 = Ok out ∧ has_shape (2, 8, 1) out.
Proof.
  split; [exact resize_nearest_contract|]. split; [exact impulse_wf|].
  apply (resample_shape resize_nearest impulse 8 2 3 resize_nearest_contract impulse_wf);
    first [by vm_compute; lia | by (cbn; lia) | lia | by do 2 right; left].
Defined.

(** ** wavelet *)

Lemma tzip_full_full (f : float → float → float) (s : shape) (a b : float) :
  tzip f (full s a) (full s b) = full s (f a b).
Proof.
  destruct s as [[h w] c]. unfold tzip, full. cbn. f_equal.
  by rewrite !zip_with_replicate.
Qed.

Lemma stretch_same {A} (n : nat) (l : list A) : stretch n n l = l.
Proof. unfold stretch. by rewrite decide_True. Qed.

Lemma broadcast_to_same (t : ndarray) : broadcast_to t (tf_shape t) = t.
Proof.
  destruct t as [h w c rs]. unfold broadcast_to. cbn. rewrite stretch_same. f_equal.
  transitivity (id <$> rs); [|apply list_fmap_id].
  apply list_fmap_ext. intros _ r _. rewrite stretch_same.
  transitivity (id <$> r); [|apply list_fmap_id].
  apply list_fmap_ext. intros _ p _. apply stretch_same.
Qed.

Lemma tensor_sub_same_shape (a b : ndarray) :
  tf_shape a = tf_shape b → tensor_sub a b = Ok (tf_subtract a b).
Proof.
  intros Hs. unfold tensor_sub. rewrite <- Hs.
  assert (broadcast_shapes (tf_shape a) (tf_shape a) = Some (tf_shape a)) as ->.
  { unfold broadcast_shapes, broadcast_extent, tf_shape. by rewrite !decide_True. }
  rewrite broadcast_to_same. rewrite Hs at 1. by rewrite broadcast_to_same.
Qed.

Lemma trunc_half_nat (n : nat) :
  Z.to_nat (trunc (Qc_of_nat n * half)%Qc) = n / 2.
Proof.
  unfold Qc_of_nat. rewrite trunc_half by lia.
  change 2%Z with (Z.of_nat 2). rewrite <- Nat2Z.inj_div. apply Nat2Z.id.
Qed.

Lemma has_shape_no_rows (w c : nat) (t : ndarray) :
  has_shape (0, w, c) t → t = NDArray 0 w c [].
Proof.
  destruct t as [h' w' c' rs]. intros [[= -> -> ->] [Hlen _]]. cbn in Hlen.
  by destruct rs.
Qed.

Lemma has_shape_one_sample (t : ndarray) :
  has_shape (1, 1, 1) t → ∃ v, t = NDArray 1 1 1 [[[v]]].
Proof.
  destruct t as [h' w' c' rs]. intros [[= -> -> ->] [Hlen Hr]]. cbn in Hlen, Hr.
  destruct rs as [|r [|? ?]]; try done.
  apply Forall_cons in Hr as [[Hw Hp] _].
  destruct r as [|p [|? ?]]; try done.
  apply Forall_cons in Hp as [Hc _].
  destruct p as [|v [|? ?]]; try done. by exists v.
Qed.

(** C9, as amended.  Under the contract of the library resize, for every
    constant tensor of height and width at least 2, of any channel count
    and with its value in [0, 1], [wavelet] returns the all-zero tensor of
    the same shape: both resamplings reproduce the constant, and the
    difference is zero. *)
Theorem wavelet_constant (resize : ndarray → shape → Z → result ndarray)
    (h w c : nat) (q : Qc) :
  resize_contract resize →
  2 ≤ h → 2 ≤ w → (0 ≤ q ∧ q ≤ 1)%Qc →
  wavelet resize (full (h, w, c) (Fin q)) = Ok (full (h, w, c) (Fin 0)).
Proof.
  intros Hc Hh Hw _. unfold wavelet. cbn [tf_shape full height width channels].
  rewrite !trunc_half_nat.
  assert (0 < h / 2 ∧ 0 < w / 2) as [Hh2 Hw2].
  { split; apply Nat.div_str_pos; lia. }
  change (NDArray h w c (replicate h (replicate w (replicate c (Fin q)))))
    with (full (h, w, c) (Fin q)).
  rewrite (resample_constant resize Hc (h, w, c)); cbn [fst snd]; try lia;
    [|by do 2 right; left].
  cbn [mbind result_bind].
  rewrite (resample_constant resize Hc (h / 2, w / 2, c)); cbn [fst snd]; try lia;
    [|by do 2 right; left].
  cbn [mbind result_bind]. rewrite tensor_sub_same_shape by done.
  unfold tf_subtract. rewrite tzip_full_full.
  assert (fsub (Fin q) (Fin q) = Fin 0) as ->; [|done].
  cbn -[Qcplus Qcopp]. f_equal. ring.
Qed.

Lemma wavelet_constant_witness :
  resize_contract resize_nearest ∧ 2 ≤ 2 ∧ 2 ≤ 4 ∧ (0 ≤ half ∧ half ≤ 1)%Qc ∧
  wavelet resize_nearest (full (2, 4, 3) (Fin half)) = Ok (full (2, 4, 3) (Fin 0)).
Proof.
  assert (0 ≤ half ∧ half ≤ 1)%Qc as Hq by (split; by vm_compute).
  split; [exact resize_nearest_contract|]. split; [lia|]. split; [lia|].
  split; [exact Hq|].
  apply (wavelet_constant resize_nearest 2 4 3 half resize_nearest_contract);
    [lia|lia|exact Hq].
Defined.

(** C9 as stated fails on tensors one sample high or wide: half of 1
    truncates to 0, so the 1x1x1 tensors of value 0 and of value 1 are
    both resampled to the tensor without samples, whatever the resize
    does, and nothing computed from it can give back both constants. *)
Lemma wavelet_single_sample_loses_constant :
  ¬ ∃ resize, resize_contract resize ∧
      wavelet resize (full (1, 1, 1) (Fin 0)) = Ok (full (1, 1, 1) (Fin 0)) ∧
      wavelet resize (full (1, 1, 1) (Fin 1)) = Ok (full (1, 1, 1) (Fin 0)).
Proof.
  intros (resize & Hc & H0 & H1). unfold wavelet in H0, H1.
  cbn [tf_shape full height width channels] in H0, H1.
  rewrite !trunc_half_nat in H0, H1.
  change (1 / 2) with 0 in H0, H1.
  apply bind_Ok in H0 as (d0 & Hd0 & H0). apply bind_Ok in H1 as (d1 & Hd1 & H1).
  apply (resample_Ok resize Hc) in Hd0; [|apply (wf_full (1, 1, 1))].
  apply (resample_Ok resize Hc) in Hd1; [|apply (wf_full (1, 1, 1))].
  cbn [channels] in Hd0, Hd1.
  apply has_shape_no_rows in Hd0 as ->. apply has_shape_no_rows in Hd1 as ->.
  apply bind_Ok in H0 as (u & Hu & H0). apply bind_Ok in H1 as (u' & Hu' & H1).
  rewrite Hu in Hu'. injection Hu' as <-.
  apply (resample_Ok resize Hc) in Hu; [|by split].
  apply has_shape_one_sample in Hu as [v ->].
  rewrite tensor_sub_same_shape in H0, H1 by done.
  injection H0 as H0. injection H1 as H1.
  destruct v as [a| | |]; try done.
  cbn -[Qcplus Qcopp] in H0, H1. injection H0 as H0. injection H1 as H1.
  apply eq_Qeq in H0, H1.
  rewrite !Qred_correct in H0. rewrite !Qred_correct in H1. lra.
Qed.

(** * Further properties *)

(** ** normalize: range and invariance *)

Local Open Scope Qc_scope.



Lemma scaled_sample (a b q : Qc) :
  fsub (fmul (Fin q) (Fin a)) (Fin b) = Fin (q * a - b).
Proof. done. Qed.




(** ** crease: the ridge *)







(** ** _conform_kernel_to_tensor *)

Local Close Scope Qc_scope.

Lemma reshape_repeat {A} (c : nat) (xs : list A) :
  reshape (replicate (length xs) c) (np_repeat xs c) = replicate c <$> xs.
Proof.
  unfold np_repeat. induction xs as [|x xs IH]; [done|].
  cbn. rewrite take_app_length', drop_app_length' by by rewrite length_replicate.
  f_equal. apply IH.
Qed.

Lemma reshape_concat {A} (n : nat) (ls : list (list A)) :
  Forall (λ r, length r = n) ls →
  reshape (replicate (length ls) n) (concat ls) = ls.
Proof.
  induction 1 as [|r ls Hr _ IH]; [done|].
  cbn. rewrite take_app_length', drop_app_length' by done. by rewrite IH.
Qed.

Lemma length_concat_rows {A} (n : nat) (ls : list (list A)) :
  Forall (λ r, length r = n) ls → length (concat ls) = length ls * n.
Proof.
  induction 1 as [|r ls Hr _ IH]; [done|]. cbn. rewrite length_app, IH, Hr. lia.
Qed.

Lemma value_square (k : ConvKernel) : Forall (λ r, length r = side k) (value k).
Proof. destruct k; by repeat constructor. Qed.

Lemma conform_square_kernel (kernel : list (list Z)) (t : ndarray) :
  Forall (λ r, length r = length kernel) kernel →
  _conform_kernel_to_tensor kernel t = Ok (depthwise_filter kernel (channels t)).
Proof.
  intros Hsq. unfold _conform_kernel_to_tensor, tf_reshape.
  set (l := length kernel). set (c := channels t).
  assert (length (concat kernel) = l * l) as Hlen by by apply length_concat_rows.
  rewrite decide_True by (rewrite length_np_repeat; lia).
  cbn [mbind result_bind]. unfold mret, result_ret, depthwise_filter. f_equal.
  unfold convert_image_dtype_int. fold l. f_equal.
  rewrite <- Hlen, reshape_repeat, <- concat_fmap_fmap.
  replace (replicate l l)
    with (replicate (length (fmap (M:=list) (fmap (M:=list) (replicate c)) kernel)) l)
    by (by rewrite length_fmap).
  rewrite reshape_concat.
  2: { apply Forall_fmap. eapply Forall_impl; [exact Hsq|]. intros r Hr. cbn.
       by rewrite length_fmap. }
  rewrite <- list_fmap_compose. apply list_fmap_ext. intros _ r _. cbn.
  rewrite <- list_fmap_compose. apply list_fmap_ext. intros _ z _. cbn.
  by rewrite fmap_replicate.
Qed.

Lemma sample_at_depthwise_filter (kernel : list (list Z)) (n i j c : nat) :
  Forall (λ r, length r = length kernel) kernel →
  i < length kernel → j < length kernel → c < n →
  sample_at (depthwise_filter kernel n) i j c = kernel_weight ((kernel !!! i) !!! j).
Proof.
  intros Hsq Hi Hj Hc. unfold sample_at, depthwise_filter. cbn [rows].
  destruct (lookup_lt_is_Some_2 kernel i) as [r Hr]; [done|].
  rewrite Forall_lookup in Hsq. pose proof (Hsq i r Hr) as Hlen.
  destruct (lookup_lt_is_Some_2 r j) as [z Hz]; [lia|].
  rewrite (list_lookup_total_correct _ _ _ Hr), (list_lookup_total_correct _ _ _ Hz).
  erewrite (list_lookup_total_correct (_ <$> kernel)); [|by rewrite list_lookup_fmap, Hr].
  erewrite (list_lookup_total_correct (_ <$> r)); [|by rewrite list_lookup_fmap, Hz].
  by rewrite lookup_total_replicate_2.
Qed.

(** X4.  For every kernel of the enumeration and every tensor,
    [_conform_kernel_to_tensor] succeeds and returns the filter of shape
    (side, side, channels) in which every channel carries the same copy of
    the kernel: the weight at row [i], column [j] of every channel is the
    integer [kernel[i][j]] scaled by the largest 64-bit integer. *)
Theorem conform_kernel_replicates (k : ConvKernel) (t : ndarray) :
  _conform_kernel_to_tensor (value k) t = Ok (depthwise_filter (value k) (channels t)) ∧
  has_shape (side k, side k, channels t) (depthwise_filter (value k) (channels t)) ∧
  ∀ i j c, i < side k → j < side k → c < channels t →
    sample_at (depthwise_filter (value k) (channels t)) i j c
    = kernel_weight ((value k !!! i) !!! j).
Proof.
  pose proof (value_square k) as Hsq. split_and!.
  - by apply conform_square_kernel.
  - split; [done|]. split; cbn.
    + by rewrite length_fmap.
    + apply Forall_fmap. eapply Forall_impl; [exact Hsq|]. intros r Hr. cbn.
      rewrite length_fmap. split; [done|].
      apply Forall_fmap, Forall_forall. intros z _. cbn. apply length_replicate.
  - intros i j c Hi Hj Hc. by apply sample_at_depthwise_filter.
Qed.

(** ** convolve: tensors too small for the kernel *)

Lemma trunc_half_neg (z : Z) :
  (z < 0)%Z → trunc (Qc_of_Z z * half)%Qc = (- (- z / 2))%Z.
Proof.
  intros Hz. unfold trunc.
  assert (Qc_of_Z z * half < 0)%Qc as Hneg.
  { unfold Qc_of_Z. qc_to_q.
    rewrite Zlt_Qlt in Hz. change (inject_Z 0) with 0%Q in Hz. lra. }
  destruct (_ ?= _)%Qc eqn:Hc.
  - exfalso. apply Qccompare_Eq in Hc. rewrite Hc in Hneg. by apply Qclt_not_eq in Hneg.
  - unfold Qc_of_Z, half, Qcmult, Q2Qc; cbn [this]. unfold Qceiling.
    rewrite !Qred_correct. unfold Qfloor, Qopp, Qmult, inject_Z; cbn [Qnum Qden Pos.mul].
    by rewrite Z.mul_1_r.
  - exfalso. apply Qccompare_Gt in Hc.
    exact (Qclt_not_le _ _ Hneg (Qclt_le_weak _ _ Hc)).
Qed.

(** X5.  When the quarter padding is smaller than the reach of the
    kernel, that is [2 * (height / 4) < side - 1] or
    [2 * (width / 4) < side - 1], [convolve] returns no tensor: it raises
    ValueError, from the convolution when the padded tensor is smaller
    than the kernel and from the crop, whose width is negative, otherwise. *)
Theorem convolve_too_small_raises (k : ConvKernel) (t : ndarray) :
  2 * (height t / 4) < side k - 1 ∨ 2 * (width t / 4) < side k - 1 →
  convolve k t = Raise ValueError.
Proof.
  intros Hsmall. unfold convolve, tf_shape at 1.
  destruct (conform_kernel_shape k t) as (f & -> & Hfh & Hfw).
  destruct (side_odd k) as (m & Hm & Hside).
  cbn [mbind result_bind]. rewrite !trunc_quarter, !Nat2Z.id.
  set (ph := height t / 4) in *. set (pw := width t / 4) in *.
  unfold tf_depthwise_conv2d. case_decide as Hfit; [|done].
  cbn [mbind result_bind tf_shape height width channels np_pad_wrap].
  rewrite Hfh, Hfw in *. cbn [height width np_pad_wrap] in Hfit.
  unfold crop. rewrite decide_True; [done|].
  destruct Hsmall as [Hs|Hs]; [left|right].
  - rewrite trunc_half_neg by lia.
    assert (1 ≤ - (Z.of_nat (height t + 2 * ph - side k + 1) - Z.of_nat (height t)) / 2)%Z;
      [|lia].
    apply Z.div_le_lower_bound; lia.
  - rewrite trunc_half_neg by lia.
    assert (1 ≤ - (Z.of_nat (width t + 2 * pw - side k + 1) - Z.of_nat (width t)) / 2)%Z;
      [|lia].
    apply Z.div_le_lower_bound; lia.
Qed.

Lemma convolve_too_small_raises_witness :
  (2 * (height (full (3, 3, 1) (Fin 0)) / 4) < side emboss - 1 ∨
   2 * (width (full (3, 3, 1) (Fin 0)) / 4) < side emboss - 1) ∧
  convolve emboss (full (3, 3, 1) (Fin 0)) = Raise ValueError.
Proof.
  assert (2 * (height (full (3, 3, 1) (Fin 0)) / 4) < side emboss - 1 ∨
          2 * (width (full (3, 3, 1) (Fin 0)) / 4) < side emboss - 1) as H
    by (left; vm_compute; lia).
  split; [exact H|].
  exact (convolve_too_small_raises emboss (full (3, 3, 1) (Fin 0)) H).
Defined.

(** ** convolve: a flat image *)

Lemma pad_wrap_replicate {A} (p n : nat) (x : A) :
  p ≤ n → pad_wrap p (replicate n x) = replicate (n + 2 * p) x.
Proof.
  intros Hp. unfold pad_wrap.
  rewrite length_replicate, drop_replicate, take_replicate, <- !replicate_add.
  f_equal. lia.
Qed.

Lemma np_pad_wrap_full (h w c ph pw : nat) (v : float) :
  ph ≤ h → pw ≤ w →
  np_pad_wrap (full (h, w, c) v) ph pw = full (h + 2 * ph, w + 2 * pw, c) v.
Proof.
  intros Hph Hpw. unfold np_pad_wrap, full. cbn [height width channels rows]. f_equal.
  by rewrite fmap_replicate, !pad_wrap_replicate.
Qed.

Lemma crop_axis_replicate {A} (c n : nat) (x : A) :
  crop_axis c (replicate n x) = replicate (n - c - c) x.
Proof.
  unfold crop_axis.
  rewrite length_replicate, drop_replicate, take_replicate. f_equal. lia.
Qed.

Lemma crop_full (h w c ch cw : nat) (v : float) :
  crop (full (h, w, c) v) (Z.of_nat ch) (Z.of_nat cw)
  = Ok (full (h - ch - ch, w - cw - cw, c) v).
Proof.
  unfold crop. rewrite decide_False by lia. rewrite !Nat2Z.id.
  unfold full. cbn [height width channels rows]. do 2 f_equal.
  by rewrite fmap_replicate, !crop_axis_replicate.
Qed.

Lemma bind_ext_Forall {A B} (f g : A → list B) (l : list A) :
  Forall (λ x, f x = g x) l → l ≫= f = l ≫= g.
Proof. induction 1 as [|x l Hx _ IH]; [done|]. cbn. by rewrite Hx, IH. Qed.

Lemma Forall_seq (P : nat → Prop) (n : nat) :
  (∀ i, i < n → P i) → Forall P (seq 0 n).
Proof. intros H. apply Forall_forall. intros i Hi%elem_of_seq. apply H. lia. Qed.

(** A window over a flat image sums the same products wherever it is. *)
Lemma depthwise_conv2d_full (kernel : list (list Z)) (h w c : nat) (q : Qc) :
  Forall (λ r, length r = length kernel) kernel →
  length kernel ≤ h → length kernel ≤ w →
  ∃ v, is_finite v ∧
    tf_depthwise_conv2d (full (h, w, c) (Fin q)) (depthwise_filter kernel c)
    = Ok (full (h - length kernel + 1, w - length kernel + 1, c) v).
Proof.
  intros Hsq Hh Hw. set (l := length kernel) in *.
  set (products := di ← seq 0 l; dj ← seq 0 l;
                   [fmul (Fin q) (kernel_weight ((kernel !!! di) !!! dj))]).
  exists (foldl fadd (Fin 0) products). split.
  - apply foldl_fadd_finite; [done|]. apply Forall_forall. intros v Hv.
    apply list_elem_of_bind in Hv as (di & Hv & _).
    apply list_elem_of_bind in Hv as (dj & Hv & _).
    by apply list_elem_of_singleton in Hv as ->.
  - unfold tf_depthwise_conv2d. cbn [height width channels depthwise_filter full].
    fold l. rewrite decide_True by done. f_equal. f_equal.
    apply fmap_seq_const. intros i Hi. apply fmap_seq_const. intros j Hj.
    apply fmap_seq_const. intros k Hk. f_equal.
    apply bind_ext_Forall, Forall_seq. intros di Hdi.
    apply bind_ext_Forall, Forall_seq. intros dj Hdj.
    change (NDArray h w c (replicate h (replicate w (replicate c (Fin q)))))
      with (full (h, w, c) (Fin q)).
    change (NDArray l l c _) with (depthwise_filter kernel c).
    rewrite sample_at_full by lia.
    by rewrite sample_at_depthwise_filter.
Qed.

Ltac fold_full :=
  repeat match goal with
  | |- context [NDArray ?a ?b ?c (replicate ?a (replicate ?b (replicate ?c ?v)))] =>
      change (NDArray a b c (replicate a (replicate b (replicate c v))))
        with (full (a, b, c) v)
  end.

(** X6.  A flat image has nothing to normalize after the convolution: for
    every kernel and every tensor of one finite value that is large enough
    for the kernel, of any channel count, [convolve] returns the tensor of
    the same shape whose samples are all NaN. *)
Theorem convolve_flat_is_nan (k : ConvKernel) (h w c : nat) (q : Qc) :
  side k - 1 ≤ 2 * (h / 4) → side k - 1 ≤ 2 * (w / 4) →
  convolve k (full (h, w, c) (Fin q)) = Ok (full (h, w, c) NaN).
Proof.
  intros Hh Hw. unfold convolve, tf_shape at 1.
  pose proof (Nat.Div0.mul_div_le h 4) as Hph.
  pose proof (Nat.Div0.mul_div_le w 4) as Hpw.
  pose proof (value_square k) as Hsq.
  destruct (side_odd k) as (m & Hm & Hside).
  rewrite conform_square_kernel by done.
  cbn [mbind result_bind full height width channels]. fold_full.
  rewrite !trunc_quarter, !Nat2Z.id.
  set (ph := h / 4) in *. set (pw := w / 4) in *.
  rewrite np_pad_wrap_full by lia.
  destruct (depthwise_conv2d_full (value k) (h + 2 * ph) (w + 2 * pw) c q)
    as (v & Hv & ->); [done|unfold side in *; lia..|].
  fold (side k). cbn [mbind result_bind tf_shape full height width channels]. fold_full.
  rewrite !trunc_half by lia.
  assert (Z.of_nat (h + 2 * ph - side k + 1) - Z.of_nat h = Z.of_nat (ph - m) * 2)%Z
    as -> by lia.
  assert (Z.of_nat (w + 2 * pw - side k + 1) - Z.of_nat w = Z.of_nat (pw - m) * 2)%Z
    as -> by lia.
  rewrite !Z.div_mul by done.
  rewrite crop_full. cbn [mbind result_bind]. unfold mret, result_ret. f_equal.
  destruct v as [s| | |]; try done.
  rewrite normalize_constant_is_nan.
  assert (h + 2 * ph - side k + 1 - (ph - m) - (ph - m) = h) as -> by lia.
  by assert (w + 2 * pw - side k + 1 - (pw - m) - (pw - m) = w) as -> by lia.
Qed.

Lemma convolve_flat_is_nan_witness :
  side sharpen - 1 ≤ 2 * (4 / 4) ∧ side sharpen - 1 ≤ 2 * (4 / 4) ∧
  convolve sharpen (full (4, 4, 3) (Fin half)) = Ok (full (4, 4, 3) NaN).
Proof.
  assert (side sharpen - 1 ≤ 2 * (4 / 4)) as H by (vm_compute; lia).
  split; [exact H|]. split; [exact H|].
  exact (convolve_flat_is_nan sharpen 4 4 3 half H H).
Defined.

(** ** displace: the output is a gather of the input *)

Lemma np_getitem_Ok {A} (l : list A) (i : Z) (v : A) :
  (0 ≤ i)%Z → np_getitem l i = Ok v → l !! Z.to_nat i = Some v.
Proof.
  intros Hi. unfold np_getitem. cbv zeta.
  destruct (decide (i < 0)%Z) as [?|_]; [lia|].
  case_decide; [|done]. by destruct (l !! Z.to_nat i) as [a|]; intros [= ->].
Qed.

Lemma for_each_seq_Ok {S} (I : nat → S → Prop) (body : S → nat → result S)
    (n : nat) (s s' : S) :
  I 0 s →
  (∀ i s s', i < n → I i s → body s i = Ok s' → I (Datatypes.S i) s') →
  for_each (seq 0 n) s body = Ok s' → I n s'.
Proof.
  assert (∀ a s, I a s →
    (∀ i s s', a ≤ i < a + n → I i s → body s i = Ok s' → I (Datatypes.S i) s') →
    for_each (seq a n) s body = Ok s' → I (a + n) s') as Hgen.
  { induction n as [|n IH]; intros a s0 Hs Hbody.
    - cbn. intros [= <-]. by rewrite Nat.add_0_r.
    - cbn [seq for_each]. intros (s1 & Hs1 & Hrest)%bind_Ok.
      replace (a + Datatypes.S n) with (Datatypes.S a + n) by lia.
      apply (IH (Datatypes.S a) s1); [|intros i s2 s3 Hi; apply Hbody; lia|done].
      apply (Hbody a s0); [lia|done..]. }
  intros Hs Hbody. apply (Hgen 0 s Hs). intros i s1 s2 Hi. apply Hbody. lia.
Qed.

(** One step of the loop writes, at (y, x), a pixel of the tensor. *)
Lemma displace_pixel_gathers (t ref temp temp' : ndarray) (bx by_ : Z) (x y : nat) :
  wf t → has_shape (tf_shape t) temp → x < width t → y < height t →
  displace_pixel t ref bx by_ temp x y = Ok temp' →
  ∃ y' x' p,
    y' < height t ∧ x' < width t ∧ pixel_at t y' x' = Some p ∧
    temp' = NDArray (height t) (width t) (channels t)
              (alter (λ r, <[x := p]> r) y (rows temp)).
Proof.
  intros Hwf [Hst Hwft] Hx Hy Hpix.
  destruct (displace_pixel_Ok _ _ _ _ _ _ _ _ Hx Hy Hpix)
    as (xo & yo & _ & _ & Hxo & Hyo & row & p & Hrow & Hp & Hset).
  apply np_getitem_Ok in Hrow; [|lia]. apply np_getitem_Ok in Hp; [|lia].
  assert (pixel_at t (Z.to_nat yo) (Z.to_nat xo) = Some p) as Hpx.
  { apply pixel_at_Some. eauto. }
  injection Hst as Hsh Hsw Hsc.
  rewrite np_setitem_nat in Hset; try done; try lia.
  2: { rewrite Hsc. exact (wf_lookup_pixel t _ _ p Hwf Hpx). }
  injection Hset as <-. exists (Z.to_nat yo), (Z.to_nat xo), p.
  split_and!; [lia|lia|done|]. by rewrite Hsh, Hsw, Hsc.
Qed.

Lemma displace_loop_gathers (t ref temp out : ndarray) (bx by_ : Z) :
  wf t → has_shape (tf_shape t) temp →
  for_each (seq 0 (width t)) temp (λ temp x,
    for_each (seq 0 (height t)) temp (λ temp y,
      displace_pixel t ref bx by_ temp x y)) = Ok out →
  has_shape (tf_shape t) out ∧
  ∀ y x, y < height t → x < width t →
    ∃ y' x', y' < height t ∧ x' < width t ∧
             is_Some (pixel_at out y x) ∧ pixel_at out y x = pixel_at t y' x'.
Proof.
  intros Hwf Hshape Hloop.
  pose (from_t (temp : ndarray) (y x : nat) :=
    ∃ y' x', y' < height t ∧ x' < width t ∧
             is_Some (pixel_at temp y x) ∧ pixel_at temp y x = pixel_at t y' x').
  apply (for_each_seq_Ok
    (λ x temp, has_shape (tf_shape t) temp ∧
       ∀ y' x', y' < height t → x' < x → from_t temp y' x')) in Hloop.
  - destruct Hloop as [Hs Hall]. split; [done|]. intros y x Hy Hx. by apply Hall.
  - split; [done|]. intros; lia.
  - intros x s s' Hx [Hs Hall] Hcol.
    apply (for_each_seq_Ok
      (λ y temp, has_shape (tf_shape t) temp ∧
         ∀ y' x', y' < height t → x' < x ∨ (x' = x ∧ y' < y) → from_t temp y' x'))
      in Hcol.
    + destruct Hcol as [Hs' Hall']. split; [done|].
      intros y' x' Hy' Hx'. apply Hall'; [done|]. lia.
    + split; [done|]. intros y' x' Hy' [?|[_ ?]]; [by apply Hall|lia].
    + intros y s1 s2 Hy [Hs1 Hall1] Hpix.
      destruct (displace_pixel_gathers _ _ _ _ _ _ _ _ Hwf Hs1 Hx Hy Hpix)
        as (y0 & x0 & p & Hy0 & Hx0 & Hp & ->).
      destruct Hs1 as [Hst1 Hwf1]. destruct s1 as [h1 w1 c1 rs1].
      injection Hst1 as -> -> ->.
      split; [split; [done|]|].
      { apply wf_alter_insert; [done|]. exact (wf_lookup_pixel t y0 x0 p Hwf Hp). }
      intros y' x' Hy' Hc.
      destruct (decide ((y', x') = (y, x))) as [[= -> ->]|Hne].
      * exists y0, x0. unfold from_t. rewrite pixel_at_alter_eq by done.
        by split_and!.
      * unfold from_t. rewrite pixel_at_alter_ne by done. apply Hall1; [done|].
        destruct Hc as [?|[-> ?]]; [by left|right]. split; [done|].
        destruct (decide (y' = y)) as [->|?]; [done|lia].
Qed.

(** X7.  Whatever the displacement and the random draws are, a tensor
    that [displace] returns has the shape of its input, and every one of
    its pixels is a pixel of the input, taken from some row and column
    within the input: [displace] moves pixels and makes no new value. *)
Theorem displace_gathers (t out : ndarray) (displacement : float) (rx ry : Qc) :
  wf t → displace t displacement rx ry = Ok out →
  has_shape (tf_shape t) out ∧
  ∀ y x, y < height t → x < width t →
    ∃ y' x', y' < height t ∧ x' < width t ∧
             is_Some (pixel_at out y x) ∧ pixel_at out y x = pixel_at t y' x'.
Proof.
  intros Hwf. unfold displace. cbv zeta. unfold tf_shape at 1. cbv beta iota.
  intros (g & _ & (temp & Hloop & [= <-])%bind_Ok)%bind_Ok.
  eapply displace_loop_gathers; [done|apply has_shape_full|exact Hloop].
Qed.

Lemma displace_gathers_witness :
  wf two_pixels ∧ displace two_pixels (Fin 1) half 0%Qc = Ok two_pixels ∧
  has_shape (tf_shape two_pixels) two_pixels ∧
  ∀ y x, y < height two_pixels → x < width two_pixels →
    ∃ y' x', y' < height two_pixels ∧ x' < width two_pixels ∧
             is_Some (pixel_at two_pixels y x) ∧
             pixel_at two_pixels y x = pixel_at two_pixels y' x'.
Proof.
  split; [exact two_pixels_wf|]. split; [exact displace_two_pixels|].
  exact (displace_gathers two_pixels two_pixels (Fin 1) half 0%Qc
           two_pixels_wf displace_two_pixels).
Defined.

(** ** displace: when it returns *)






(** ** displace: channel counts it does not take *)

Lemma for_each_first_raises {S} (body : S → nat → result S) (n : nat) (s : S) (e : error) :
  0 < n → body s 0 = Raise e → for_each (seq 0 n) s body = Raise e.
Proof. intros Hn Hb. destruct n as [|n]; [lia|]. cbn. by rewrite Hb. Qed.

(** X9.  On a tensor with at least one pixel, [displace] takes one or
    three channels only: with no channel or with two, the reference pixel
    is not a scalar and the conversion to an integer raises TypeError;
    with four or more, the luminance is rejected with ValueError. *)
Theorem displace_unsupported_channels (t : ndarray) (displacement : float) (rx ry : Qc) :
  wf t → 0 < height t → 0 < width t →
  channels t ≠ 1 → channels t ≠ 3 →
  displace t displacement rx ry =
  Raise (if decide (channels t < 3) then TypeError else ValueError).
Proof.
  intros Hwf Hh Hw Hc1 Hc3. unfold displace. cbv zeta. unfold tf_shape at 1. cbv beta iota.
  destruct (decide (channels t < 3)) as [Hlt|Hge].
  - rewrite decide_False by lia. cbn [mbind result_bind].
    rewrite (for_each_first_raises _ _ _ TypeError); [done|done|].
    apply for_each_first_raises; [done|].
    unfold displace_pixel. rewrite !py_mod_pos by done. cbn [mbind result_bind].
    set (ref := tf_multiply_scalar _ _).
    assert (wf ref) as Hwfr.
    { subst ref. unfold tf_multiply_scalar, tf_subtract_scalar. by do 2 apply wf_tmap. }
    pose proof Hwfr as [Hrl _].
    assert (length (rows ref) = height t) as Hrl' by (by rewrite Hrl).
    destruct (np_getitem_range (rows ref)
                ((Z.of_nat 0 + trunc (ry * Qc_of_nat (height t))%Qc) mod Z.of_nat (height t)))
      as (r & -> & Hr); [rewrite Hrl'; apply Z.mod_pos_bound; lia|].
    cbn [mbind result_bind].
    destruct (wf_lookup_row ref _ r Hwfr Hr) as [Hlr Hpr].
    assert (length r = width t) as Hlr' by (by rewrite Hlr).
    destruct (np_getitem_range r (Z.of_nat 0)) as (p & -> & Hp); [lia|].
    cbn [mbind result_bind].
    rewrite Forall_lookup in Hpr. specialize (Hpr _ _ Hp).
    assert (length p ≠ 1) as Hlen by (by rewrite Hpr).
    by destruct p as [|v [|v' p]].
  - rewrite decide_True by lia. unfold tf_rgb_to_grayscale.
    by rewrite decide_False by lia.
Qed.

Lemma displace_unsupported_channels_witness :
  wf (full (2, 2, 2) (Fin 0)) ∧
  displace (full (2, 2, 2) (Fin 0)) (Fin 1) half 0%Qc = Raise TypeError.
Proof.
  split; [apply wf_full|].
  apply (displace_unsupported_channels (full (2, 2, 2) (Fin 0)) (Fin 1) half 0%Qc);
    [apply wf_full|cbn; lia..].
Defined.

(** ** resample and wavelet: shapes *)

Lemma wf_tzip (f : float → float → float) (a b : ndarray) :
  wf a → wf b → tf_shape a = tf_shape b → wf (tzip f a b).
Proof.
  intros [Hha Hra] [Hhb Hrb] [= Hh Hw Hc]. split; cbn.
  - rewrite length_zip_with. lia.
  - apply Forall_lookup. intros i r (ra & rb & -> & Hia & Hib)%lookup_zip_with_Some.
    rewrite Forall_lookup in Hra, Hrb.
    destruct (Hra i ra Hia) as [Hwa Hpa]. destruct (Hrb i rb Hib) as [Hwb Hpb].
    split; [rewrite length_zip_with; lia|].
    apply Forall_lookup. intros j p (pa & pb & -> & Hja & Hjb)%lookup_zip_with_Some.
    rewrite Forall_lookup in Hpa, Hpb.
    pose proof (Hpa j pa Hja). pose proof (Hpb j pb Hjb).
    rewrite length_zip_with. lia.
Qed.

(** X10.  Under the contract of the library resize, resampling a
    non-empty tensor to any positive size and resampling the result back
    to the original width and height returns a tensor of the original
    shape. *)
Theorem resample_round_trip_shape (resize : ndarray → shape → Z → result ndarray)
    (t : ndarray) (w h : nat) (order order' : Z) :
  resize_contract resize →
  wf t → 0 < height t → 0 < width t → 0 < w → 0 < h →
  order ∈ [0; 1; 3]%Z → order' ∈ [0; 1; 3]%Z →
  ∃ small back,
    resample resize t w h order = Ok small ∧
    has_shape (h, w, channels t) small ∧
    resample resize small (width t) (height t) order' = Ok back ∧
    has_shape (tf_shape t) back.
Proof.
  intros Hc Hwf Hth Htw Hw Hh Ho Ho'.
  destruct (resample_defined resize Hc t w h order) as [small Hsmall]; try done.
  pose proof (resample_Ok resize Hc t small w h order Hwf Hsmall) as Hs.
  pose proof Hs as [[= Hsh Hsw Hsc] Hwfs].
  destruct (resample_defined resize Hc small (width t) (height t) order')
    as [back Hback]; try done; try lia.
  pose proof (resample_Ok resize Hc small back _ _ order' Hwfs Hback) as Hb.
  exists small, back. split_and!; try done. by rewrite Hsc in Hb.
Qed.

Lemma resample_round_trip_shape_witness :
  resize_contract resize_nearest ∧ wf impulse ∧
  ∃ small back,
    resample resize_nearest impulse 2 2 3 = Ok small ∧
    has_shape (2, 2, channels impulse) small ∧
    resample resize_nearest small (width impulse) (height impulse) 3 = Ok back ∧
    has_shape (tf_shape impulse) back.
Proof.
  split; [exact resize_nearest_contract|]. split; [exact impulse_wf|].
  apply (resample_round_trip_shape resize_nearest impulse 2 2 3 3
           resize_nearest_contract impulse_wf);
    first [by (cbn; lia) | lia | by do 2 right; left].
Defined.

(** X11.  Under the contract of the library resize, for every tensor at
    least two samples high and wide, [wavelet] raises nothing and returns
    the difference between the tensor and its round trip through half
    the size, a tensor of the shape of the input. *)
Theorem wavelet_shape (resize : ndarray → shape → Z → result ndarray) (t : ndarray) :
  resize_contract resize →
  wf t → 2 ≤ height t → 2 ≤ width t →
  ∃ down up,
    resample resize t (width t / 2) (height t / 2) 3 = Ok down ∧
    resample resize down (width t) (height t) 3 = Ok up ∧
    wavelet resize t = Ok (tf_subtract t up) ∧
    has_shape (tf_shape t) (tf_subtract t up).
Proof.
  intros Hc Hwf Hh Hw.
  assert (0 < height t / 2 ∧ 0 < width t / 2) as [Hh2 Hw2].
  { split; apply Nat.div_str_pos; lia. }
  assert (3 ∈ [0; 1; 3])%Z as H3 by (by do 2 right; left).
  destruct (resample_defined resize Hc t (width t / 2) (height t / 2) 3)
    as [down Hdown]; try done; try lia.
  pose proof (resample_Ok resize Hc t down _ _ 3 Hwf Hdown) as [[= Hdh Hdw Hdc] Hwfd].
  destruct (resample_defined resize Hc down (width t) (height t) 3)
    as [up Hup]; try done; try lia;
    [by rewrite Hdh | by rewrite Hdw |].
  pose proof (resample_Ok resize Hc down up _ _ 3 Hwfd Hup) as [Hsu Hwfu].
  rewrite Hdc in Hsu.
  exists down, up. unfold wavelet. cbn [tf_shape]. rewrite !trunc_half_nat.
  rewrite Hdown. cbn [mbind result_bind]. rewrite Hup. cbn [mbind result_bind].
  rewrite tensor_sub_same_shape by done. split_and!; try done.
  split; [done|]. by apply wf_tzip.
Qed.

Lemma wavelet_shape_witness :
  resize_contract resize_nearest ∧ wf impulse ∧
  ∃ down up,
    resample resize_nearest impulse (width impulse / 2) (height impulse / 2) 3 = Ok down ∧
    resample resize_nearest down (width impulse) (height impulse) 3 = Ok up ∧
    wavelet resize_nearest impulse = Ok (tf_subtract impulse up) ∧
    has_shape (tf_shape impulse) (tf_subtract impulse up).
Proof.
  split; [exact resize_nearest_contract|]. split; [exact impulse_wf|].
  apply (wavelet_shape resize_nearest impulse resize_nearest_contract impulse_wf);
    cbn; lia.
Defined.
